(** * LocalChunkManager: the local-filesystem chunk store

    A shallow embedding of [internal/storage/local_chunk_manager.go] and the
    properties its specification states about it.

    The Go file is a thin layer over the standard library: [path], [path/filepath],
    [strings], [os] and [io/ioutil].  Those packages are modelled first
    ([GoStrings], [GoPath], [OS]); the methods of [LocalChunkManager] are then
    transcribed statement by statement on top of the model ([LCM]). *)

From Stdlib Require Import ZArith List String Ascii Bool Lia.
From Stdlib.Strings Require Import Byte.
Import ListNotations.

Set Warnings "-register-all".

Local Open Scope string_scope.
Local Open Scope list_scope.

(** ** package strings *)

Module GoStrings.

(** [strings.HasPrefix(s, prefix)] *)
Definition HasPrefix (s prefix : string) : bool := String.prefix prefix s.

Fixpoint skip (n : nat) (s : string) : string :=
  match n, s with
  | O, _ => s
  | S _, EmptyString => EmptyString
  | S k, String _ r => skip k r
  end.

(** [strings.TrimPrefix(s, prefix)]: [s[len(prefix):]] when [s] starts with
    [prefix], [s] itself otherwise. *)
Definition TrimPrefix (s prefix : string) : string :=
  if HasPrefix s prefix then skip (String.length prefix) s else s.

End GoStrings.

(** ** packages path and path/filepath (Unix) *)

Module GoPath.

Definition slash : ascii := "/"%char.

(** The elements of a path: the pieces between the slashes. *)
Fixpoint split (s : string) : list string :=
  match s with
  | EmptyString => [EmptyString]
  | String c r =>
      if Ascii.eqb c slash then EmptyString :: split r
      else match split r with
           | [] => [String c EmptyString]
           | h :: t => String c h :: t
           end
  end.

Definition rooted (p : string) : bool :=
  match p with
  | String c _ => Ascii.eqb c slash
  | EmptyString => false
  end.

(** One turn of the loop of [Clean]; [out] holds the elements written so far,
    the last one first. *)
Definition clean_step (root : bool) (out : list string) (e : string) : list string :=
  if (e =? "") || (e =? ".") then out
  else if e =? ".." then
    match out with
    | top :: rest =>
        if top =? ".." then (if root then out else ".." :: out) else rest
    | [] => if root then [] else [".."]
    end
  else e :: out.

Definition clean_elems (root : bool) (es : list string) : list string :=
  rev (fold_left (clean_step root) es []).

Definition render (root : bool) (es : list string) : string :=
  if root then "/" ++ String.concat "/" es
  else match es with
       | [] => "."
       | _ => String.concat "/" es
       end.

(** [path.Clean]: the shortest path equivalent to [p] by lexical processing
    (no empty element, no [.], every inner [..] cancelled with the element
    before it, a [..] at the start of a rooted path dropped). *)
Definition Clean (p : string) : string :=
  if p =? "" then "."
  else render (rooted p) (clean_elems (rooted p) (split p)).

(** [path.Join(a, b)]: empty elements are ignored, the rest is joined with
    a slash and cleaned; the result is empty when both are. *)
Definition Join (a b : string) : string :=
  if (a =? "") && (b =? "") then ""
  else if a =? "" then Clean b
  else if b =? "" then Clean a
  else Clean (a ++ "/" ++ b).

Fixpoint has_slash (s : string) : bool :=
  match s with
  | EmptyString => false
  | String c r => Ascii.eqb c slash || has_slash r
  end.

(** [p[:i+1]] for [i] the index of the last slash of [p]. *)
Fixpoint upto_last_slash (s : string) : string :=
  match s with
  | EmptyString => EmptyString
  | String c r => if has_slash s then String c (upto_last_slash r) else EmptyString
  end.

(** [path.Dir] and [filepath.Dir] (no volume names on Unix). *)
Definition Dir (p : string) : string := Clean (upto_last_slash p).

End GoPath.

(** ** package os, over a model of the file system

    The file system is a tree of directories and regular files (no symbolic
    links, so [Lstat] and [Stat] agree).  A directory records whether the
    process may search it (the [x] permission bit): looking up, creating or
    unlinking an entry of a directory that is not searchable fails with
    [EACCES], while listing its names is still possible.  Directory entries are
    kept in name order, the order in which [filepath.Walk] visits them.
    Relative paths are resolved from the working directory, taken to be the
    root of the tree.  Every path the chunk manager hands to the system comes
    out of [path.Clean], so [..] occurs at the start of a relative path only,
    where it denotes the root again.  The system refuses, before it looks at
    the tree, the empty name, a name that holds a NUL byte and a name of
    [PATH_MAX] bytes or more; and it refuses to look up, create or unlink,
    in a directory it reached, an element of more than [NAME_MAX] bytes.
    Files are taken to be readable and writable by the process. *)

Module OS.

Inductive error : Type :=
| ENOENT                      (* no such file or directory *)
| ENOTDIR                     (* not a directory *)
| EACCES                      (* permission denied *)
| EISDIR                      (* is a directory *)
| EBUSY                       (* device or resource busy *)
| EINVAL                      (* invalid argument *)
| ENAMETOOLONG                (* file name too long *)
| EOF                         (* io.EOF *)
| Errorf (msg : string)       (* fmt.Errorf, errors.New *)
| ErrorList (el : list error). (* errorutil.ErrorList *)

(** [os.IsNotExist] *)
Definition IsNotExist (e : error) : bool :=
  match e with ENOENT => true | _ => false end.

Inductive node : Type :=
| File (content : list byte) (modTime : Z)
| Dir (modTime : Z) (searchable : bool) (entries : list (string * node)).

Record FS : Type := mkFS { tree : node; clock : Z }.

(** [os.FileInfo]; the size of a directory depends on the system, 4096 here. *)
Record FileInfo : Type := mkInfo { IsDir : bool; ModTime : Z; Size : Z }.

Definition info_of (n : node) : FileInfo :=
  match n with
  | File c t => mkInfo false t (Z.of_nat (List.length c))
  | Dir t _ _ => mkInfo true t 4096
  end.

Definition real_elem (e : string) : bool :=
  negb ((e =? "") || (e =? ".") || (e =? "..")).

(** The names to follow from the root to reach [p]. *)
Definition elements (p : string) : list string :=
  filter real_elem (GoPath.split p).

Fixpoint lookup (name : string) (es : list (string * node)) : option node :=
  match es with
  | [] => None
  | (k, v) :: r => if k =? name then Some v else lookup name r
  end.

(** Put [v] under [name]: in place of the entry of that name, or at its place
    in name order. *)
Fixpoint upsert (name : string) (v : node) (es : list (string * node))
  : list (string * node) :=
  match es with
  | [] => [(name, v)]
  | (k, w) :: r =>
      if k =? name then (name, v) :: r
      else if String.ltb name k then (name, v) :: (k, w) :: r
      else (k, w) :: upsert name v r
  end.

(** Put [v] in place of the entry of that name. *)
Definition replace (name : string) (v : node) (es : list (string * node))
  : list (string * node) :=
  map (fun kv => if fst kv =? name then (name, v) else kv) es.

Definition unlink (name : string) (es : list (string * node))
  : list (string * node) :=
  filter (fun kv => negb (fst kv =? name)) es.

(** The limits of Linux: the bytes of one element of a path, as ext4, xfs
    and tmpfs have it, and the bytes of a whole path with the NUL that ends
    it. *)
Definition NAME_MAX : nat := 255.
Definition PATH_MAX : nat := 4096.

Definition too_long (e : string) : bool := (NAME_MAX <? String.length e)%nat.

Fixpoint find (n : node) (es : list string) : error + node :=
  match es with
  | [] => inr n
  | e :: rest =>
      match n with
      | File _ _ => inl ENOTDIR
      | Dir _ s ents =>
          if s then
            if too_long e then inl ENAMETOOLONG
            else
              match lookup e ents with
              | Some m => find m rest
              | None => inl ENOENT
              end
          else inl EACCES
      end
  end.

Fixpoint has_nul (s : string) : bool :=
  match s with
  | EmptyString => false
  | String c r => Ascii.eqb c "000"%char || has_nul r
  end.

(** The names a system call refuses whatever the tree holds: a name with a
    NUL byte is [EINVAL], before the call is made; a name that does not fit
    in [PATH_MAX] bytes is [ENAMETOOLONG]; the empty name is [ENOENT]. *)
Definition reject (name : string) : option error :=
  if has_nul name then Some EINVAL
  else if (PATH_MAX <=? String.length name)%nat then Some ENAMETOOLONG
  else if name =? "" then Some ENOENT
  else None.

(** The node a name designates. *)
Definition locate (fs : FS) (name : string) : error + node :=
  match reject name with
  | Some e => inl e
  | None => find (tree fs) (elements name)
  end.

(** [os.Stat] and [os.Lstat] *)
Definition Stat (fs : FS) (name : string) : error + FileInfo :=
  match locate fs name with
  | inl e => inl e
  | inr n => inr (info_of n)
  end.

Definition Lstat := Stat.

(** The directories are made from the top: those made before one cannot be
    made stay. *)
Fixpoint mkdirAll (now : Z) (n : node) (es : list string) : node * option error :=
  match es with
  | [] => match n with
          | Dir _ _ _ => (n, None)
          | File _ _ => (n, Some ENOTDIR)
          end
  | e :: rest =>
      match n with
      | File _ _ => (n, Some ENOTDIR)
      | Dir t s ents =>
          if s then
            if too_long e then (n, Some ENAMETOOLONG)
            else
              let (m', err) := mkdirAll now (match lookup e ents with
                                             | Some m => m
                                             | None => Dir now true []
                                             end) rest in
              (Dir t s (upsert e m' ents), err)
          else (n, Some EACCES)
      end
  end.

(** [os.MkdirAll(path, os.ModePerm)]: nothing to do when [path] is a directory
    already; the missing directories are created otherwise, the parent before
    the child, so that a failure leaves the directories made before it. *)
Definition MkdirAll (fs : FS) (path : string) : FS * option error :=
  match reject path with
  | Some e => (fs, Some e)
  | None =>
      let (t, err) := mkdirAll (clock fs) (tree fs) (elements path) in
      (mkFS t (clock fs), err)
  end.

Fixpoint writeFile (now : Z) (data : list byte) (n : node) (es : list string)
  : error + node :=
  match es with
  | [] => match n with
          | File _ _ => inr (File data now)
          | Dir _ _ _ => inl EISDIR
          end
  | e :: rest =>
      match n with
      | File _ _ => inl ENOTDIR
      | Dir t s ents =>
          if s then
            if too_long e then inl ENAMETOOLONG
            else
              match lookup e ents with
              | Some m =>
                  match writeFile now data m rest with
                  | inr m' => inr (Dir t s (upsert e m' ents))
                  | inl err => inl err
                  end
              | None =>
                  match rest with
                  | [] => inr (Dir t s (upsert e (File data now) ents))
                  | _ :: _ => inl ENOENT
                  end
              end
          else inl EACCES
      end
  end.

(** [ioutil.WriteFile(name, data, os.ModePerm)]: the file is created when it is
    missing and truncated otherwise, then [data] is written to it.  The
    directory that holds it has to exist. *)
Definition WriteFile (fs : FS) (name : string) (data : list byte)
  : FS * option error :=
  match reject name with
  | Some e => (fs, Some e)
  | None =>
      match writeFile (clock fs) data (tree fs) (elements name) with
      | inr t => (mkFS t (clock fs + 1), None)
      | inl e => (fs, Some e)
      end
  end.

(** [ioutil.ReadFile] *)
Definition ReadFile (fs : FS) (name : string) : list byte * option error :=
  match locate fs name with
  | inl e => ([], Some e)
  | inr (File c _) => (c, None)
  | inr (Dir _ _ _) => ([], Some EISDIR)
  end.

(** [os.Open]; the handle is the node it designates. *)
Definition Open (fs : FS) (name : string) : error + node :=
  locate fs name.

(** The largest [int64]. *)
Definition maxInt64 : Z := 2 ^ 63 - 1.

(** [int64]: an integer from [-2^63] to [2^63 - 1]. *)
Definition in_int64 (z : Z) : bool := ((- 2 ^ 63 <=? z) && (z <=? maxInt64))%Z.

Record int64 : Type := mkInt64 { val : Z; val_in_int64 : in_int64 val = true }.

(** The most bytes [make] agrees to give one slice: [maxAlloc] of the run
    time, [1 << 48] on 64-bit Linux.  Beyond it [make] panics
    (makeslice: len out of range). *)
Definition maxAlloc : Z := 2 ^ 48.

(** [File.ReadAt(b, off)] of package os, for [len(b) = len]: the bytes read and the
    error.  The loop of [ReadAt] runs while a part of [b] is still to be filled,
    so nothing is read, and nothing fails, when [len] is 0.  Otherwise [pread]
    refuses, with [EINVAL], a read whose end [off + len] no [int64] holds; a
    directory cannot be read; and the error is [io.EOF] when the file ends
    before [b] is full. *)
Definition file_ReadAt (f : node) (len off : Z) : list byte * option error :=
  if (len =? 0)%Z then ([], None)
  else if (maxInt64 <? off + len)%Z then ([], Some EINVAL)
  else match f with
       | Dir _ _ _ => ([], Some EISDIR)
       | File c _ =>
           let got := firstn (Z.to_nat len) (skipn (Z.to_nat off) c) in
           if (Z.of_nat (List.length got) <? len)%Z then (got, Some EOF)
           else (got, None)
       end.

(** What is left of a tree once everything that can be removed has been:
    [None] when the whole tree goes, the directories that could not be
    emptied otherwise. *)
Fixpoint purge (n : node) : option node :=
  match n with
  | File _ _ => None
  | Dir t s ents =>
      let fix each (l : list (string * node)) : list (string * node) :=
        match l with
        | [] => []
        | (k, m) :: r =>
            match purge m with
            | None => each r
            | Some m' => (k, m') :: each r
            end
        end in
      match ents with
      | [] => None
      | _ :: _ =>
          if s then
            match each ents with
            | [] => None
            | l' => Some (Dir t s l')
            end
          else Some n
      end
  end.

(** What [RemoveAll] does to the tree: an entry that is missing is no
    error, a path that leads through a regular file is [ENOTDIR]. *)
Fixpoint removeAll (n : node) (es : list string) : node * option error :=
  match es with
  | [] =>
      (* the root itself: emptied as far as possible, never unlinked *)
      match purge n with
      | None => (match n with Dir t s _ => Dir t s [] | File _ _ => n end, Some EBUSY)
      | Some n' => (n', Some EACCES)
      end
  | e :: rest =>
      match n with
      | File _ _ => (n, Some ENOTDIR)
      | Dir t s ents =>
          if s then
            if too_long e then (n, Some ENAMETOOLONG)
            else
              match lookup e ents with
              | None => (n, None)
              | Some m =>
                  match rest with
                  | [] =>
                      match purge m with
                      | None => (Dir t s (unlink e ents), None)
                      | Some m' => (Dir t s (replace e m' ents), Some EACCES)
                      end
                  | _ :: _ =>
                      let (m', err) := removeAll m rest in
                      (Dir t s (replace e m' ents), err)
                  end
              end
          else (n, Some EACCES)
      end
  end.

(** [endsWithDot] of package os: the path is [.] or ends with [/.]. *)
Fixpoint ends_slash_dot (path : string) : bool :=
  match path with
  | EmptyString => false
  | String c r => (Ascii.eqb c "/"%char && (r =? ".")) || ends_slash_dot r
  end.

Definition endsWithDot (path : string) : bool :=
  (path =? ".") || ends_slash_dot path.

(** [os.RemoveAll]: removes [path] and everything below it; what cannot be
    removed stays and the error is returned.  A path that does not exist is not
    an error, nor is the empty path; a path that ends with a dot is refused. *)
Definition RemoveAll (fs : FS) (path : string) : FS * option error :=
  if path =? "" then (fs, None)
  else if endsWithDot path then (fs, Some EINVAL)
  else match reject path with
       | Some e => (fs, Some e)
       | None =>
           let (t, err) := removeAll (tree fs) (elements path) in
           (mkFS t (clock fs), err)
       end.

(** A panic of the Go run time, or a normal return. *)
Inductive outcome (A : Type) : Type :=
| Panic
| Ret (a : A).
Arguments Panic {A}.
Arguments Ret {A} a.

(** Why the [lstat] of the entry [name] of a directory that can be searched
    fails, when it does: [filename] is the path the walk has for it. *)
Definition refused (filename name : string) : option error :=
  match reject filename with
  | Some e => Some e
  | None => if too_long name then Some ENAMETOOLONG else None
  end.

Section Walk.
Context {St : Type}.

(** [filepath.WalkFunc], as a closure over a state [St]: the [info] is [nil]
    ([None]) exactly when the entry could not be examined. *)
Definition WalkFunc : Type :=
  string -> option FileInfo -> option error -> St -> outcome (St * option error).

Variable fn : WalkFunc.

(** [filepath.walk]: the entry itself, then for a directory its entries in
    name order; an entry that [lstat] cannot examine is reported to [fn]
    with no [info]; an error returned by [fn] stops the walk. *)
Fixpoint walk (path : string) (n : node) (st : St) : outcome (St * option error) :=
  match n with
  | File _ _ => fn path (Some (info_of n)) None st
  | Dir _ s ents =>
      match fn path (Some (info_of n)) None st with
      | Panic => Panic
      | Ret (st1, Some e) => Ret (st1, Some e)
      | Ret (st1, None) =>
          (fix each (l : list (string * node)) (st : St) {struct l} :=
             match l with
             | [] => Ret (st, None)
             | (name, m) :: r =>
                 let filename := GoPath.Join path name in
                 match (if s then
                          match refused filename name with
                          | Some e => fn filename None (Some e) st
                          | None => walk filename m st
                          end
                        else fn filename None (Some EACCES) st) with
                 | Panic => Panic
                 | Ret (st', Some e) => Ret (st', Some e)
                 | Ret (st', None) => each r st'
                 end
             end) ents st1
      end
  end.

(** [filepath.Walk] *)
Definition Walk (fs : FS) (root : string) (st : St) : outcome (St * option error) :=
  match locate fs root with
  | inl err => fn root None (Some err) st
  | inr n => walk root n st
  end.
End Walk.

End OS.

(** ** LocalChunkManager *)

Module LCM.
Import OS.

(** [type LocalChunkManager struct { localPath string }] *)
Record LocalChunkManager : Type := mkLCM { localPath : string }.

Section Methods.
Variable lcm : LocalChunkManager.

(** [filepath.Glob] is left open: the paths matching a pattern, or the
    error of a malformed pattern. *)
Variable Glob : FS -> string -> list string * option error.

Definition RootPath : string := localPath lcm.

Definition Exist (fs : FS) (filePath : string) : bool * option error :=
  let absPath := GoPath.Join (localPath lcm) filePath in
  match Stat fs absPath with
  | inl err => if IsNotExist err then (false, None) else (false, Some err)
  | inr _ => (true, None)
  end.

Definition Path (fs : FS) (filePath : string) : string * option error :=
  match Exist fs filePath with
  | (_, Some err) => ("", Some err)
  | (exist_, None) =>
      if negb exist_
      then ("", Some (Errorf ("local file cannot be found with filePath: " ++ filePath)))
      else (GoPath.Join (localPath lcm) filePath, None)
  end.

(** [Reader]; the [FileReader] handed out is the file [os.Open] opened. *)
Definition Reader (fs : FS) (filePath : string) : option node * option error :=
  match Exist fs filePath with
  | (_, Some err) => (None, Some err)
  | (exist_, None) =>
      if negb exist_
      then (None, Some (Errorf ("local file cannot be found with filePath:" ++ filePath)))
      else
        let absPath := GoPath.Join (localPath lcm) filePath in
        match Open fs absPath with
        | inl err => (None, Some err)
        | inr f => (Some f, None)
        end
  end.

Definition Write (fs : FS) (filePath : string) (content : list byte)
  : FS * option error :=
  let absPath := GoPath.Join (localPath lcm) filePath in
  let dir := GoPath.Dir absPath in
  match Exist fs dir with
  | (_, Some err) => (fs, Some err)
  | (exist_, None) =>
      if negb exist_ then
        match MkdirAll fs dir with
        | (fs1, Some err) => (fs1, Some err)
        | (fs1, None) => WriteFile fs1 absPath content
        end
      else WriteFile fs absPath content
  end.

(** [contents] lists the entries of the map in the order the [range] loop
    meets them. *)
Fixpoint MultiWrite_loop (fs : FS) (contents : list (string * list byte))
    (el : list error) : FS * list error :=
  match contents with
  | [] => (fs, el)
  | (filePath, content) :: rest =>
      match Write fs filePath content with
      | (fs1, Some err) => MultiWrite_loop fs1 rest (el ++ [err])
      | (fs1, None) => MultiWrite_loop fs1 rest el
      end
  end.

Definition MultiWrite (fs : FS) (contents : list (string * list byte))
  : FS * option error :=
  let (fs1, el) := MultiWrite_loop fs contents [] in
  if (List.length el =? 0)%nat then (fs1, None) else (fs1, Some (ErrorList el)).

Definition Read (fs : FS) (filePath : string) : list byte * option error :=
  match Exist fs filePath with
  | (_, Some err) => ([], Some err)
  | (exist_, None) =>
      if negb exist_ then ([], Some (Errorf ("file not exist: " ++ filePath)))
      else ReadFile fs (GoPath.Join (localPath lcm) filePath)
  end.

(** The loop of [MultiRead]; [results] holds the slots filled so far. *)
Fixpoint MultiRead_loop (fs : FS) (filePaths : list string)
    (results : list (list byte)) (el : list error)
  : list (list byte) * list error :=
  match filePaths with
  | [] => (results, el)
  | filePath :: rest =>
      let (content, err) := Read fs filePath in
      let el1 := match err with Some e => el ++ [e] | None => el end in
      MultiRead_loop fs rest (results ++ [content]) el1
  end.

Definition MultiRead (fs : FS) (filePaths : list string)
  : list (list byte) * option error :=
  let (results, el) := MultiRead_loop fs filePaths [] [] in
  if (List.length el =? 0)%nat then (results, None) else (results, Some (ErrorList el)).

Definition getModTime (fs : FS) (filepath : string) : Z * option error :=
  let absPath := GoPath.Join (localPath lcm) filepath in
  match Stat fs absPath with
  | inl err => (0%Z, Some err)
  | inr fi => (ModTime fi, None)
  end.

(** The function literal handed to [filepath.Walk]; its variable
    [filePaths] is the state.  It calls [f.IsDir()] without looking at
    [err], and [f] is [nil] when [err] is not. *)
Definition walkFn (absPrefix : string) : WalkFunc (St := list string) :=
  fun filePath f err filePaths =>
    if GoStrings.HasPrefix filePath absPrefix then
      match f with
      | None => Panic
      | Some fi =>
          if negb (IsDir fi)
          then Ret (filePaths ++ [GoStrings.TrimPrefix filePath (localPath lcm)], None)
          else Ret (filePaths, None)
      end
    else Ret (filePaths, None).

(** [for _, filePath := range filePaths { modTime, err2 := ... }] *)
Fixpoint modTimes_loop (fs : FS) (filePaths : list string) (modTimes : list Z)
  : list Z * option error :=
  match filePaths with
  | [] => (modTimes, None)
  | filePath :: rest =>
      match getModTime fs filePath with
      | (_, Some err2) => ([], Some err2)
      | (modTime, None) => modTimes_loop fs rest (modTimes ++ [modTime])
      end
  end.

Definition ListWithPrefix (fs : FS) (prefix : string) (recursive : bool)
  : outcome (list string * list Z * option error) :=
  if recursive then
    let absPrefix := GoPath.Join (localPath lcm) prefix in
    let dir := GoPath.Dir absPrefix in
    match Walk (walkFn absPrefix) fs dir [] with
    | Panic => Panic
    | Ret (_, Some err) => Ret ([], [], Some err)
    | Ret (filePaths, None) =>
        match modTimes_loop fs filePaths [] with
        | (_, Some err2) => Ret (filePaths, [], Some err2)
        | (modTimes, None) => Ret (filePaths, modTimes, None)
        end
    end
  else
    let absPrefix := GoPath.Join (localPath lcm) (prefix ++ "*") in
    match Glob fs absPrefix with
    | (_, Some err) => Ret ([], [], Some err)
    | (absPaths, None) =>
        let filePaths :=
          map (fun absPath => GoStrings.TrimPrefix absPath (localPath lcm)) absPaths in
        match modTimes_loop fs filePaths [] with
        | (_, Some err2) => Ret (filePaths, [], Some err2)
        | (modTimes, None) => Ret (filePaths, modTimes, None)
        end
    end.

Definition ReadWithPrefix (fs : FS) (prefix : string)
  : outcome (list string * list (list byte) * option error) :=
  match ListWithPrefix fs prefix true with
  | Panic => Panic
  | Ret (_, _, Some err) => Ret ([], [], Some err)
  | Ret (filePaths, _, None) =>
      let (result, err) := MultiRead fs filePaths in
      Ret (filePaths, result, err)
  end.

(** The bytes the run time can still get from the system when [ReadAt]
    allocates its buffer. *)
Variable avail : N.

(** [make([]byte, length)] comes after the file is opened.  It does not
    return when [length] is beyond [maxAlloc] (a panic) or beyond the memory
    left (the fatal error of the run time); both are [Panic] here. *)
Definition ReadAt (fs : FS) (filePath : string) (off length : int64)
  : outcome (list byte * option error) :=
  if ((val off <? 0) || (val length <? 0))%Z then Ret ([], Some EOF)
  else
    let absPath := GoPath.Join (localPath lcm) filePath in
    match Open fs (GoPath.Clean absPath) with
    | inl err => Ret ([], Some err)
    | inr file =>
        if (Z.min maxAlloc (Z.of_N avail) <? val length)%Z then Panic
        else
          match file_ReadAt file (val length) (val off) with
          | (_, Some err) => Ret ([], Some err)
          | (res, None) => Ret (res, None)
          end
    end.

Definition Size (fs : FS) (filePath : string) : Z * option error :=
  let absPath := GoPath.Join (localPath lcm) filePath in
  match Stat fs absPath with
  | inl err => (0%Z, Some err)
  | inr fi => (OS.Size fi, None)
  end.

Definition Remove (fs : FS) (filePath : string) : FS * option error :=
  match Exist fs filePath with
  | (_, Some err) => (fs, Some err)
  | (exist_, None) =>
      if exist_ then
        let absPath := GoPath.Join (localPath lcm) filePath in
        match RemoveAll fs absPath with
        | (fs1, Some err) => (fs1, Some err)
        | (fs1, None) => (fs1, None)
        end
      else (fs, None)
  end.

Fixpoint MultiRemove_loop (fs : FS) (filePaths : list string) (el : list error)
  : FS * list error :=
  match filePaths with
  | [] => (fs, el)
  | filePath :: rest =>
      match Remove fs filePath with
      | (fs1, Some err) => MultiRemove_loop fs1 rest (el ++ [err])
      | (fs1, None) => MultiRemove_loop fs1 rest el
      end
  end.

Definition MultiRemove (fs : FS) (filePaths : list string) : FS * option error :=
  let (fs1, el) := MultiRemove_loop fs filePaths [] in
  if (List.length el =? 0)%nat then (fs1, None) else (fs1, Some (ErrorList el)).

Definition RemoveWithPrefix (fs : FS) (prefix : string) : outcome (FS * option error) :=
  match ListWithPrefix fs prefix true with
  | Panic => Panic
  | Ret (_, _, Some err) => Ret (fs, Some err)
  | Ret (filePaths, _, None) => Ret (MultiRemove fs filePaths)
  end.

End Methods.

End LCM.

Import OS LCM.

(** ** Vocabulary of the statements *)

(** The store before anything was written: an empty root directory. *)
Definition freshFS : FS := mkFS (Dir 0 true []) 1.

(** The errors among the results of the items of a batch, in order. *)
Fixpoint failures (rs : list (option error)) : list error :=
  match rs with
  | [] => []
  | Some e :: r => e :: failures r
  | None :: r => failures r
  end.

(** The aggregate error of a batch: [nil] when no item failed. *)
Definition aggregate (el : list error) : option error :=
  match el with
  | [] => None
  | _ :: _ => Some (ErrorList el)
  end.

(** A batch as the sequence of its single operations: the result of every
    item, each run in the state the one before left, and the state at the
    end. *)
Fixpoint item_results {X : Type} (op : FS -> X -> FS * option error)
    (fs : FS) (xs : list X) : list (option error) :=
  match xs with
  | [] => []
  | x :: r => snd (op fs x) :: item_results op (fst (op fs x)) r
  end.

Fixpoint final_state {X : Type} (op : FS -> X -> FS * option error)
    (fs : FS) (xs : list X) : FS :=
  match xs with
  | [] => fs
  | x :: r => final_state op (fst (op fs x)) r
  end.

Definition failed {A : Type} (r : A * option error) : bool :=
  match snd r with Some _ => true | None => false end.

(** The first phase of [ListWithPrefix]: the paths the walk, or the glob,
    gathers, before any modification time is looked up. *)
Definition listing (lcm : LocalChunkManager)
    (Glob : FS -> string -> list string * option error)
    (fs : FS) (prefix : string) (recursive : bool)
  : outcome (list string * option error) :=
  if recursive then
    let absPrefix := GoPath.Join (localPath lcm) prefix in
    Walk (walkFn lcm absPrefix) fs (GoPath.Dir absPrefix) []
  else
    match Glob fs (GoPath.Join (localPath lcm) (prefix ++ "*")) with
    | (_, Some err) => Ret ([], Some err)
    | (absPaths, None) =>
        Ret (map (fun absPath => GoStrings.TrimPrefix absPath (localPath lcm)) absPaths,
             None)
    end.

(** The second stat of a listed path succeeds. *)
Definition stat_ok (lcm : LocalChunkManager) (fs : FS) (filePath : string) : Prop :=
  exists fi, Stat fs (GoPath.Join (localPath lcm) filePath) = inr fi.

(** What [purge] leaves of the entries of a directory. *)
Fixpoint purge_entries (l : list (string * node)) : list (string * node) :=
  match l with
  | [] => []
  | (k, m) :: r =>
      match purge m with
      | None => purge_entries r
      | Some m' => (k, m') :: purge_entries r
      end
  end.

(** An entry met by a walk: its path as the walk spells it, the names that
    lead to it from the root of the tree, and what [lstat] tells about it:
    nothing for an entry of a directory that cannot be searched, nor for one
    whose name the system refuses. *)
Record entry : Type := mkEntry {
  e_path : string;
  e_pos : list string;
  e_info : option FileInfo
}.

(** The entries a walk from [path] meets, in the order it meets them. *)
Fixpoint visit (path : string) (pos : list string) (n : node) : list entry :=
  match n with
  | File _ _ => [mkEntry path pos (Some (info_of n))]
  | Dir _ s ents =>
      mkEntry path pos (Some (info_of n))
      :: flat_map (fun kv : string * node =>
                     if s then
                       match refused (GoPath.Join path (fst kv)) (fst kv) with
                       | Some _ => [mkEntry (GoPath.Join path (fst kv)) (pos ++ [fst kv]) None]
                       | None => visit (GoPath.Join path (fst kv)) (pos ++ [fst kv]) (snd kv)
                       end
                     else [mkEntry (GoPath.Join path (fst kv)) (pos ++ [fst kv]) None]) ents
  end.

Definition visited (fs : FS) (root : string) : list entry :=
  match locate fs root with
  | inl _ => [mkEntry root (elements root) None]
  | inr n => visit root (elements root) n
  end.

(** An entry that is not a directory and whose path starts with [absPrefix],
    character by character. *)
Definition file_under (absPrefix : string) (e : entry) : bool :=
  GoStrings.HasPrefix (e_path e) absPrefix
  && match e_info e with Some fi => negb (IsDir fi) | None => false end.

(** An entry whose path starts with [absPrefix] and that could not be
    examined. *)
Definition unknown_under (absPrefix : string) (e : entry) : bool :=
  GoStrings.HasPrefix (e_path e) absPrefix
  && match e_info e with Some _ => false | None => true end.

(** The spec's tree: [a/b/x.txt], [a/b/c/y.txt] and [a/bc/z.txt] under the
    root directory [/data/]. *)
Definition dataLCM : LocalChunkManager := mkLCM "/data/".

Definition treeFS : FS :=
  mkFS (Dir 0 true
          [("data", Dir 1 true
              [("a", Dir 1 true
                  [("b", Dir 1 true
                      [("c", Dir 2 true [("y.txt", File [x02] 2)]);
                       ("x.txt", File [x01] 1)]);
                   ("bc", Dir 3 true [("z.txt", File [x03] 3)])])])]) 4.

(** A chunk manager whose root is written without the final slash. *)
Definition rootLCM : LocalChunkManager := mkLCM "/data".

(** The directory [/data/a] holds an entry [b] and may be listed, not
    searched (mode [r--]). *)
Definition lockedFS : FS :=
  mkFS (Dir 0 true
          [("data", Dir 1 true
              [("a", Dir 1 false [("b", File [x01] 1)])])]) 2.

(** Next to the root directory [/data], which holds [base/x], a directory
    [/database] that holds a file [x]. *)
Definition siblingFS : FS :=
  mkFS (Dir 0 true
          [("data", Dir 1 true [("base", Dir 1 true [("x", File [x01] 1)])]);
           ("database", Dir 2 true [("x", File [x02] 2)])]) 3.

(** A [filepath.Glob] that matches nothing. *)
Definition noGlob : FS -> string -> list string * option error :=
  fun _ _ => ([], None).

(** No two names of the list are the same. *)
Fixpoint distinct (l : list string) : bool :=
  match l with
  | [] => true
  | x :: r => negb (existsb (String.eqb x) r) && distinct r
  end.

(** A tree of the file system is well formed when no directory has two
    entries of the same name. *)
Fixpoint wfb (n : node) : bool :=
  match n with
  | File _ _ => true
  | Dir _ _ ents => distinct (map fst ents) && forallb (fun kv => wfb (snd kv)) ents
  end.

(** The length of the elements of a path, each with a slash. *)
Definition span (l : list string) : nat :=
  list_sum (map (fun e => S (String.length e)) l).

Fixpoint ends_with_slash (s : string) : bool :=
  match s with
  | EmptyString => false
  | String c EmptyString => Ascii.eqb c GoPath.slash
  | String _ r => ends_with_slash r
  end.

(** The elements [Clean] writes are not empty and hold no slash. *)
Definition plain (e : string) : Prop := e <> "" /\ GoPath.has_slash e = false.

(** [treeFS] once its three files are removed: the directories stay. *)
Definition clearedFS : FS :=
  mkFS (Dir 0 true
          [("data", Dir 1 true
              [("a", Dir 1 true
                  [("b", Dir 1 true [("c", Dir 2 true [])]);
                   ("bc", Dir 3 true [])])])]) 4.

(** An element [Clean] keeps as a name: not empty, no slash, neither [.] nor
    [..]. *)
Definition named (e : string) : Prop := plain e /\ e <> "." /\ e <> "..".

(** The elements [Clean] has written, the last one first: names, and below
    them the [..] a path that is not rooted starts with. *)
Definition normal (root : bool) (out : list string) : Prop :=
  exists n names,
    out = names ++ repeat ".." n /\ (root = true -> n = 0%nat) /\ Forall named names.

(** The place in the tree a virtual path resolves to. *)
Definition place (lcm : LocalChunkManager) (filePath : string) : list string :=
  elements (GoPath.Join (localPath lcm) filePath).

(** A name of 256 bytes, one more than a directory stores. *)
Definition longName : string := string_of_list_ascii (repeat "a"%char 256).

(** The walk can examine the entry [k] of the directory at [path]. *)
Definition examined (s : bool) (path k : string) : bool :=
  s && match refused (GoPath.Join path k) k with Some _ => false | None => true end.

(** ** The model of the file system *)

Lemma lookup_upsert name v es : lookup name (upsert name v es) = Some v.
Proof.
  induction es as [|[k w] r IH]; simpl.
  - now rewrite String.eqb_refl.
  - destruct (k =? name) eqn:Hk; simpl.
    + now rewrite String.eqb_refl.
    + destruct (String.ltb name k); simpl.
      * now rewrite String.eqb_refl.
      * now rewrite Hk.
Qed.

Lemma lookup_upsert_other name name' v es :
  (name' =? name) = false -> lookup name (upsert name' v es) = lookup name es.
Proof.
  intros Hne. induction es as [|[k w] r IH]; simpl; [now rewrite Hne|].
  destruct (k =? name') eqn:Hk; simpl.
  - apply String.eqb_eq in Hk. subst k. now rewrite Hne.
  - destruct (String.ltb name' k); simpl; [now rewrite Hne|]. now rewrite IH.
Qed.

Lemma find_writeFile now data es : forall n n',
  writeFile now data n es = inr n' -> find n' es = inr (File data now).
Proof.
  induction es as [|e rest IH]; intros n n' H; simpl in H.
  - destruct n; now inversion H.
  - destruct n as [|t s ents]; [discriminate|].
    destruct s; [|discriminate].
    destruct (too_long e) eqn:Hlong; [discriminate|].
    destruct (lookup e ents) as [m|] eqn:Hl.
    + destruct (writeFile now data m rest) as [err|m'] eqn:Hw; [discriminate|].
      inversion H; subst; simpl. rewrite Hlong, lookup_upsert. eauto.
    + destruct rest; [|discriminate].
      inversion H; subst; simpl. now rewrite Hlong, lookup_upsert.
Qed.

Lemma locate_inr fs name n :
  locate fs name = inr n ->
  reject name = None /\ find (tree fs) (elements name) = inr n.
Proof. unfold locate. destruct (reject name); [discriminate|auto]. Qed.

Lemma locate_accept fs name :
  reject name = None -> locate fs name = find (tree fs) (elements name).
Proof. unfold locate. now intros ->. Qed.

Lemma reject_cases name e :
  reject name = Some e ->
  name = "" /\ e = ENOENT \/ e = EINVAL \/ e = ENAMETOOLONG.
Proof.
  unfold reject. destruct (has_nul name); [intros H; inversion H; auto|].
  destruct (PATH_MAX <=? String.length name)%nat; [intros H; inversion H; auto|].
  destruct (name =? "") eqn:E; [|discriminate].
  apply String.eqb_eq in E. intros H. inversion H. auto.
Qed.

Lemma locate_ENOENT fs name :
  locate fs name = inl ENOENT ->
  name = "" \/ (reject name = None /\ find (tree fs) (elements name) = inl ENOENT).
Proof.
  unfold locate. destruct (reject name) as [e|] eqn:Hr; [|auto].
  intros H. inversion H; subst e.
  destruct (reject_cases _ _ Hr) as [[-> _]|[Hc|Hc]]; [auto|discriminate ..].
Qed.

Lemma reject_empty : reject "" = Some ENOENT.
Proof. reflexivity. Qed.

Lemma WriteFile_ok fs name data fs' :
  WriteFile fs name data = (fs', None) ->
  reject name = None /\
  exists t, writeFile (clock fs) data (tree fs) (elements name) = inr t /\
            fs' = mkFS t (clock fs + 1).
Proof.
  unfold WriteFile. intros H. destruct (reject name); [discriminate|].
  split; [reflexivity|].
  destruct (writeFile (clock fs) data (tree fs) (elements name)) as [e|t] eqn:Hw;
    inversion H; subst. eauto.
Qed.

Lemma WriteFile_find fs name data fs' :
  WriteFile fs name data = (fs', None) ->
  locate fs' name = inr (File data (clock fs)).
Proof.
  intros H. destruct (WriteFile_ok _ _ _ _ H) as (Hr & t & Hw & ->).
  rewrite (locate_accept _ _ Hr). simpl. eapply find_writeFile; eauto.
Qed.

Lemma MkdirAll_cases fs path fs' r :
  MkdirAll fs path = (fs', r) ->
  (fs' = fs /\ r <> None) \/
  exists t, mkdirAll (clock fs) (tree fs) (elements path) = (t, r) /\
            fs' = mkFS t (clock fs).
Proof.
  unfold MkdirAll. intros H. destruct (reject path).
  - left. inversion H. split; [reflexivity|discriminate].
  - right. destruct (mkdirAll (clock fs) (tree fs) (elements path)) as [t e].
    inversion H; eauto.
Qed.

Lemma WriteFile_failed fs name data fs' e :
  WriteFile fs name data = (fs', Some e) -> fs' = fs.
Proof.
  unfold WriteFile. intros H. destruct (reject name); [now inversion H|].
  destruct (writeFile (clock fs) data (tree fs) (elements name)); now inversion H.
Qed.

(** ** Single objects *)

(** A [Write] that succeeds leaves a regular file with the content at the
    resolved path. *)
Lemma Write_find lcm fs filePath content fs' :
  Write lcm fs filePath content = (fs', None) ->
  exists t, locate fs' (GoPath.Join (localPath lcm) filePath) = inr (File content t).
Proof.
  unfold Write. intros H.
  destruct (Exist lcm fs _) as [ex [err|]]; [discriminate|].
  destruct ex; simpl in H.
  - eexists. eapply WriteFile_find; eauto.
  - destruct (MkdirAll fs _) as [fs1 [err|]]; [discriminate|].
    eexists. eapply WriteFile_find; eauto.
Qed.

(** Round trip: what a successful [Write] stored is what [Read] returns. *)
Lemma Write_Read_roundtrip lcm fs filePath content fs' :
  Write lcm fs filePath content = (fs', None) ->
  Read lcm fs' filePath = (content, None).
Proof.
  intros H. destruct (Write_find _ _ _ _ _ H) as [t Ht].
  unfold Read, Exist, Stat, ReadFile. now rewrite Ht.
Qed.

Lemma mkdirAll_is_dir now es : forall n n',
  mkdirAll now n es = (n', None) -> exists t s ents, n' = Dir t s ents.
Proof.
  destruct es as [|e rest]; intros n n' H; simpl in H.
  - destruct n; inversion H; subst; eauto.
  - destruct n as [|t s ents]; [discriminate|].
    destruct s; [|discriminate].
    destruct (too_long e); [discriminate|].
    destruct (mkdirAll now _ rest); inversion H; subst; eauto.
Qed.

(** No file can be written at the root of the tree. *)
Lemma Write_not_at_root lcm fs filePath content fs' :
  Write lcm fs filePath content = (fs', None) ->
  (exists t s ents, tree fs = Dir t s ents) ->
  elements (GoPath.Join (localPath lcm) filePath) <> [].
Proof.
  unfold Write. intros H (t & s & ents & Ht) Hnil.
  destruct (Exist lcm fs _) as [ex [err|]]; [discriminate|].
  destruct ex; simpl in H.
  - destruct (WriteFile_ok _ _ _ _ H) as (_ & t1 & Hw & _).
    rewrite Hnil, Ht in Hw. discriminate.
  - destruct (MkdirAll fs _) as [fs1 [err|]] eqn:Hm; [discriminate|].
    destruct (MkdirAll_cases _ _ _ _ Hm) as [[_ Hn]|(t1 & Hm1 & ->)]; [congruence|].
    apply mkdirAll_is_dir in Hm1. destruct Hm1 as (t' & s' & ents' & ->).
    destruct (WriteFile_ok _ _ _ _ H) as (_ & t2 & Hw & _).
    rewrite Hnil in Hw. discriminate.
Qed.

(** A [Write] is, at most, the directories [MkdirAll] makes and then the
    file [WriteFile] writes. *)
Lemma Write_cases lcm fs q content fs' r :
  Write lcm fs q content = (fs', r) ->
  exists fs1,
    (fs1 = fs \/
     exists t e, mkdirAll (clock fs) (tree fs)
                   (elements (GoPath.Dir (GoPath.Join (localPath lcm) q))) = (t, e)
                 /\ fs1 = mkFS t (clock fs)) /\
    (fs' = fs1 /\ r <> None \/
     WriteFile fs1 (GoPath.Join (localPath lcm) q) content = (fs', r)).
Proof.
  unfold Write. intros H.
  destruct (Exist lcm fs _) as [ex [err|]].
  - exists fs. inversion H. split; [now left|]. left. split; [reflexivity|discriminate].
  - destruct ex; simpl in H.
    + exists fs. split; [now left|now right].
    + destruct (MkdirAll fs _) as [fs1 e] eqn:Hm. exists fs1. split.
      * destruct (MkdirAll_cases _ _ _ _ Hm) as [[-> _]|(t & Hm1 & ->)]; [now left|].
        right. eauto.
      * destruct e as [err|]; [|now right].
        left. inversion H. split; [reflexivity|discriminate].
Qed.

(** Where [WriteFile] succeeds there was a regular file, or nothing. *)
Lemma find_before_writeFile now data es : forall n n',
  writeFile now data n es = inr n' ->
  find n es = inl ENOENT \/ exists c t, find n es = inr (File c t).
Proof.
  induction es as [|e rest IH]; intros n n' H; simpl in H.
  - destruct n as [c t|]; [right; simpl; eauto|discriminate].
  - destruct n as [|t s ents]; [discriminate|].
    destruct s; [|discriminate]. cbn [find].
    destruct (too_long e); [discriminate|].
    destruct (lookup e ents) as [m|]; [|now left].
    destruct (writeFile now data m rest) as [err|m'] eqn:Hw; [discriminate|].
    eapply IH; eauto.
Qed.

(** [MkdirAll] turns no file into something else and removes nothing. *)
Lemma find_before_mkdirAll now q : forall n n' r es,
  mkdirAll now n q = (n', r) ->
  (find n' es = inl ENOENT \/ exists c t, find n' es = inr (File c t)) ->
  find n es = inl ENOENT \/ exists c t, find n es = inr (File c t).
Proof.
  induction q as [|e0 q' IH]; intros n n' r es Hm H; simpl in Hm.
  - destruct n; inversion Hm; now subst.
  - destruct n as [|t s ents]; [inversion Hm; now subst|].
    destruct s; [|inversion Hm; now subst].
    destruct (too_long e0) eqn:Hlong; [inversion Hm; now subst|].
    destruct (mkdirAll now _ q') as [m' err] eqn:Hm'.
    inversion Hm; subst n' r. destruct es as [|e rest].
    + simpl in H. destruct H as [H|(c & t0 & H)]; discriminate.
    + cbn [find] in H |- *. destruct (too_long e); [exact H|].
      destruct (e0 =? e) eqn:He.
      * apply String.eqb_eq in He. subst e0. rewrite lookup_upsert in H.
        destruct (lookup e ents) as [m|]; [|now left].
        eapply IH; eauto.
      * now rewrite (lookup_upsert_other _ _ _ _ He) in H.
Qed.

(** A [Write] that succeeds found, at its path, a regular file or nothing. *)
Lemma Write_found lcm fs filePath content fs' :
  Write lcm fs filePath content = (fs', None) ->
  let absPath := GoPath.Join (localPath lcm) filePath in
  locate fs absPath = inl ENOENT \/ exists c t, locate fs absPath = inr (File c t).
Proof.
  intros H absPath.
  destruct (Write_cases _ _ _ _ _ _ H) as (fs1 & H1 & [(_ & Hn)|Hw]); [congruence|].
  fold absPath in Hw. destruct (WriteFile_ok _ _ _ _ Hw) as (Hr & t & Hwf & _).
  rewrite (locate_accept _ _ Hr).
  pose proof (find_before_writeFile _ _ _ _ _ Hwf) as Hb.
  destruct H1 as [->|(t1 & e1 & Hm & ->)]; [exact Hb|].
  simpl in Hb. eapply find_before_mkdirAll; eauto.
Qed.

(** C6, as the code has it.  [Exist] is false without an error when the stat
    reports that the path does not exist, true without an error when the stat
    succeeds, and it hands on every other failure of the stat.  Before a
    [Write] that succeeds, [Exist] of its path returns no error, and is false
    unless a chunk is stored at the path already; so it is false on the store
    nothing was written to.  After a [Write] that succeeded it is true, with
    no error. *)
Theorem Exist_reports_presence : forall lcm fs filePath,
  let absPath := GoPath.Join (localPath lcm) filePath in
  (forall err, Stat fs absPath = inl err -> IsNotExist err = true ->
     Exist lcm fs filePath = (false, None)) /\
  (forall fi, Stat fs absPath = inr fi -> Exist lcm fs filePath = (true, None)) /\
  (forall err, Stat fs absPath = inl err -> IsNotExist err = false ->
     Exist lcm fs filePath = (false, Some err)) /\
  (forall content fs', Write lcm fs filePath content = (fs', None) ->
     Exist lcm fs filePath = (false, None) \/
     Exist lcm fs filePath = (true, None) /\
     exists stored, Read lcm fs filePath = (stored, None)) /\
  (forall content fs', Write lcm freshFS filePath content = (fs', None) ->
     Exist lcm freshFS filePath = (false, None)) /\
  (forall content fs', Write lcm fs filePath content = (fs', None) ->
     Exist lcm fs' filePath = (true, None)).
Proof.
  intros lcm fs filePath absPath.
  assert (Hbefore : forall s content fs', Write lcm s filePath content = (fs', None) ->
     Exist lcm s filePath = (false, None) \/
     Exist lcm s filePath = (true, None) /\
     exists stored, Read lcm s filePath = (stored, None)).
  { intros s content fs' Hw. unfold Read, Exist, Stat, ReadFile. fold absPath.
    destruct (Write_found _ _ _ _ _ Hw) as [H|(c & t & H)]; fold absPath in H;
      rewrite H; [now left|right]. split; [reflexivity|]. simpl. eauto. }
  split; [|split; [|split; [|split; [|split]]]].
  - intros err Hs Hn. unfold Exist. fold absPath. now rewrite Hs, Hn.
  - intros fi Hs. unfold Exist. fold absPath. now rewrite Hs.
  - intros err Hs Hn. unfold Exist. fold absPath. now rewrite Hs, Hn.
  - intros content fs'. apply Hbefore.
  - intros content fs' Hw.
    destruct (Hbefore _ _ _ Hw) as [H|[_ [stored H]]]; [exact H|].
    exfalso. unfold Read, Exist, Stat, ReadFile, locate in H. fold absPath in H.
    destruct (reject absPath) as [e|]; [destruct (IsNotExist e); discriminate|].
    pose proof (Write_not_at_root _ _ _ _ _ Hw
                  (ex_intro _ 0%Z (ex_intro _ true (ex_intro _ [] eq_refl)))) as Hne.
    fold absPath in Hne. destruct (elements absPath) as [|e rest]; [congruence|].
    unfold freshFS in H. cbn [tree find lookup] in H.
    destruct (too_long e); discriminate.
  - intros content fs' Hw. destruct (Write_find _ _ _ _ _ Hw) as [t Ht].
    unfold Exist, Stat. fold absPath in Ht |- *. now rewrite Ht.
Qed.

(** C6 fails as stated: a path can exist without ever having been written.
    After the single write of [a/x] to the empty store, [Exist] reports the
    directory [a] present, and no write was made to [a]. *)
Lemma Exist_of_unwritten_directory :
  ~ (forall lcm (writes : list (string * list byte)) p,
       ~ In p (map fst writes) ->
       Exist lcm (final_state (fun s pc => Write lcm s (fst pc) (snd pc)) freshFS writes) p
       = (false, None)).
Proof.
  intros H. specialize (H dataLCM [("a/x", [x01])] "a").
  assert (Hnot : ~ In "a" (map fst [("a/x", [x01])])).
  { intros [E|[]]. discriminate. }
  specialize (H Hnot). vm_compute in H. discriminate.
Qed.

(** ** Batches *)

Lemma aggregate_length {A : Type} (x : A) el :
  (if (List.length el =? 0)%nat then (x, None) else (x, Some (ErrorList el)))
  = (x, aggregate el).
Proof. now destruct el. Qed.

Lemma failures_app rs rs' : failures (rs ++ rs') = failures rs ++ failures rs'.
Proof.
  induction rs as [|[e|] r IH]; simpl; auto. now rewrite IH.
Qed.

Lemma aggregate_nil_iff rs :
  aggregate (failures rs) = None <-> Forall (fun r => r = None) rs.
Proof.
  split.
  - induction rs as [|[e|] r IH]; simpl; intros H; auto; discriminate.
  - induction 1 as [|r rs Hr _ IH]; simpl; auto. now subst.
Qed.

Lemma length_failures rs :
  List.length (failures rs)
  = List.length (filter (fun r => match r with Some _ => true | None => false end) rs).
Proof.
  induction rs as [|[e|] r IH]; simpl; auto.
Qed.

Lemma MultiRead_loop_eq lcm fs filePaths : forall results el,
  MultiRead_loop lcm fs filePaths results el
  = (results ++ map (fun p => fst (Read lcm fs p)) filePaths,
     el ++ failures (map (fun p => snd (Read lcm fs p)) filePaths)).
Proof.
  induction filePaths as [|p r IH]; intros results el; simpl.
  - now rewrite !app_nil_r.
  - destruct (Read lcm fs p) as [content [e|]]; rewrite IH; simpl;
      now rewrite <- !app_assoc.
Qed.

Lemma MultiRead_eq lcm fs filePaths :
  MultiRead lcm fs filePaths
  = (map (fun p => fst (Read lcm fs p)) filePaths,
     aggregate (failures (map (fun p => snd (Read lcm fs p)) filePaths))).
Proof.
  unfold MultiRead. rewrite MultiRead_loop_eq. simpl. apply aggregate_length.
Qed.

Lemma MultiWrite_loop_eq lcm contents : forall fs el,
  let W := fun s (pc : string * list byte) => Write lcm s (fst pc) (snd pc) in
  MultiWrite_loop lcm fs contents el
  = (final_state W fs contents, el ++ failures (item_results W fs contents)).
Proof.
  induction contents as [|[p c] r IH]; intros fs el; simpl.
  - now rewrite app_nil_r.
  - destruct (Write lcm fs p c) as [fs1 [e|]]; rewrite IH; simpl; auto.
    now rewrite <- app_assoc.
Qed.

Lemma MultiRemove_loop_eq lcm filePaths : forall fs el,
  MultiRemove_loop lcm fs filePaths el
  = (final_state (Remove lcm) fs filePaths,
     el ++ failures (item_results (Remove lcm) fs filePaths)).
Proof.
  induction filePaths as [|p r IH]; intros fs el; simpl.
  - now rewrite app_nil_r.
  - destruct (Remove lcm fs p) as [fs1 [e|]]; rewrite IH; simpl; auto.
    now rewrite <- app_assoc.
Qed.

Lemma MultiRemove_eq lcm fs filePaths :
  MultiRemove lcm fs filePaths
  = (final_state (Remove lcm) fs filePaths,
     aggregate (failures (item_results (Remove lcm) fs filePaths))).
Proof.
  unfold MultiRemove. rewrite MultiRemove_loop_eq. simpl. apply aggregate_length.
Qed.

Lemma Read_failed_empty lcm fs p :
  failed (Read lcm fs p) = true -> fst (Read lcm fs p) = [].
Proof.
  unfold Read, ReadFile, failed.
  destruct (Exist lcm fs p) as [ex [e|]]; simpl; auto.
  destruct ex; simpl; auto.
  destruct (locate _ _) as [e|[c t|t s ents]]; simpl; auto. discriminate.
Qed.

(** C2. [MultiRead] over [n] paths returns [n] slots in the order of the
    paths; every slot is what a single [Read] of its path returns, the empty
    slice when that read fails; the aggregate error holds the errors of the
    [k] failing reads, in order, and is [nil] when there is none. *)
Theorem MultiRead_slots_and_failures : forall lcm fs filePaths,
  let results := fst (MultiRead lcm fs filePaths) in
  let err := snd (MultiRead lcm fs filePaths) in
  let k := List.length (filter (fun p => failed (Read lcm fs p)) filePaths) in
  List.length results = List.length filePaths /\
  (forall i p, nth_error filePaths i = Some p ->
     nth_error results i = Some (fst (Read lcm fs p)) /\
     (failed (Read lcm fs p) = true -> nth_error results i = Some [])) /\
  (exists el,
     el = failures (map (fun p => snd (Read lcm fs p)) filePaths) /\
     List.length el = k /\
     err = match el with [] => None | _ :: _ => Some (ErrorList el) end).
Proof.
  intros lcm fs filePaths. rewrite MultiRead_eq. simpl. split; [|split].
  - apply length_map.
  - intros i p Hi.
    assert (Hn : nth_error (map (fun p => fst (Read lcm fs p)) filePaths) i
                 = Some (fst (Read lcm fs p))).
    { rewrite nth_error_map, Hi. reflexivity. }
    split; [exact Hn|]. intros Hf. rewrite Hn. f_equal.
    now apply Read_failed_empty.
  - eexists. split; [reflexivity|]. split; [|reflexivity].
    rewrite length_failures.
    induction filePaths as [|p r IH]; simpl; auto.
    unfold failed at 1. destruct (snd (Read lcm fs p)); simpl; auto.
Qed.

(** C5. Each batch runs the single operation on every item of its input, one
    after the other, whatever the earlier items returned; the errors met are
    collected, in order, into one aggregate, which is [nil] exactly when no
    item failed. *)
Theorem batches_run_every_item : forall lcm fs contents filePaths,
  let W := fun s (pc : string * list byte) => Write lcm s (fst pc) (snd pc) in
  (MultiWrite lcm fs contents
     = (final_state W fs contents, aggregate (failures (item_results W fs contents))) /\
   (snd (MultiWrite lcm fs contents) = None <->
      Forall (fun r => r = None) (item_results W fs contents))) /\
  (MultiRead lcm fs filePaths
     = (map (fun p => fst (Read lcm fs p)) filePaths,
        aggregate (failures (map (fun p => snd (Read lcm fs p)) filePaths))) /\
   (snd (MultiRead lcm fs filePaths) = None <->
      Forall (fun p => snd (Read lcm fs p) = None) filePaths)) /\
  (MultiRemove lcm fs filePaths
     = (final_state (Remove lcm) fs filePaths,
        aggregate (failures (item_results (Remove lcm) fs filePaths))) /\
   (snd (MultiRemove lcm fs filePaths) = None <->
      Forall (fun r => r = None) (item_results (Remove lcm) fs filePaths))).
Proof.
  intros lcm fs contents filePaths W.
  assert (HW : MultiWrite lcm fs contents
     = (final_state W fs contents, aggregate (failures (item_results W fs contents)))).
  { unfold MultiWrite. rewrite MultiWrite_loop_eq. simpl. apply aggregate_length. }
  split; [|split].
  - split; [exact HW|]. rewrite HW. simpl. apply aggregate_nil_iff.
  - split; [apply MultiRead_eq|]. rewrite MultiRead_eq. simpl.
    rewrite aggregate_nil_iff, Forall_map. reflexivity.
  - split; [apply MultiRemove_eq|]. rewrite MultiRemove_eq. simpl.
    apply aggregate_nil_iff.
Qed.

(** ** Ranged reads *)

Lemma length_window (c : list byte) (off length : Z) :
  (0 <= off)%Z -> (0 <= length)%Z ->
  Z.of_nat (List.length (firstn (Z.to_nat length) (skipn (Z.to_nat off) c)))
  = Z.min length (Z.max 0 (Z.of_nat (List.length c) - off)).
Proof.
  intros Ho Hl. rewrite length_firstn, length_skipn. lia.
Qed.


(** ** Listing: the modification times *)

Lemma ListWithPrefix_phases lcm Glob fs prefix recursive :
  ListWithPrefix lcm Glob fs prefix recursive
  = match listing lcm Glob fs prefix recursive with
    | Panic => Panic
    | Ret (_, Some err) => Ret ([], [], Some err)
    | Ret (filePaths, None) =>
        match modTimes_loop lcm fs filePaths [] with
        | (_, Some err2) => Ret (filePaths, [], Some err2)
        | (modTimes, None) => Ret (filePaths, modTimes, None)
        end
    end.
Proof.
  unfold ListWithPrefix, listing. destruct recursive.
  - destruct (Walk _ _ _ _) as [|[ps [e|]]]; reflexivity.
  - destruct (Glob _ _) as [ps [e|]]; reflexivity.
Qed.

Lemma modTimes_loop_ok lcm fs filePaths : forall modTimes,
  Forall (stat_ok lcm fs) filePaths ->
  exists ts,
    modTimes_loop lcm fs filePaths modTimes = (modTimes ++ ts, None) /\
    Forall2 (fun p t => exists fi,
               Stat fs (GoPath.Join (localPath lcm) p) = inr fi /\ t = ModTime fi)
            filePaths ts.
Proof.
  induction filePaths as [|p r IH]; intros modTimes H.
  - exists []. simpl. now rewrite app_nil_r.
  - inversion H as [|? ? [fi Hfi] Hr]; subst.
    destruct (IH (modTimes ++ [ModTime fi]) Hr) as (ts & Hts & Hall).
    exists (ModTime fi :: ts). simpl. unfold getModTime. rewrite Hfi, Hts.
    rewrite <- app_assoc. split; [reflexivity|].
    constructor; eauto.
Qed.

Lemma modTimes_loop_fail lcm fs before p after err : forall modTimes,
  Forall (stat_ok lcm fs) before ->
  Stat fs (GoPath.Join (localPath lcm) p) = inl err ->
  modTimes_loop lcm fs (before ++ p :: after) modTimes = ([], Some err).
Proof.
  induction before as [|q r IH]; intros modTimes H Hp; simpl.
  - unfold getModTime. now rewrite Hp.
  - inversion H as [|? ? [fi Hfi] Hr]; subst.
    unfold getModTime at 1. rewrite Hfi. now apply IH.
Qed.

(** C8. In either mode, once the paths are listed, every one of them is
    stat-ed a second time for its modification time.  When all these stats
    succeed the result has one time per path, in the order of the paths, each
    the modification time that stat reports; at the first stat that fails the
    result is that error, with the listed paths and no times. *)
Theorem ListWithPrefix_modTimes : forall lcm Glob fs prefix recursive filePaths,
  listing lcm Glob fs prefix recursive = Ret (filePaths, None) ->
  (Forall (stat_ok lcm fs) filePaths ->
     exists modTimes,
       ListWithPrefix lcm Glob fs prefix recursive = Ret (filePaths, modTimes, None) /\
       List.length modTimes = List.length filePaths /\
       Forall2 (fun p t => exists fi,
                  Stat fs (GoPath.Join (localPath lcm) p) = inr fi /\ t = ModTime fi)
               filePaths modTimes) /\
  (forall before p after err,
     filePaths = before ++ p :: after ->
     Forall (stat_ok lcm fs) before ->
     Stat fs (GoPath.Join (localPath lcm) p) = inl err ->
     ListWithPrefix lcm Glob fs prefix recursive = Ret (filePaths, [], Some err)).
Proof.
  intros lcm Glob fs prefix recursive filePaths Hl. split.
  - intros Hall. destruct (modTimes_loop_ok lcm fs filePaths [] Hall) as (ts & Hts & H2).
    exists ts. rewrite ListWithPrefix_phases, Hl, Hts. simpl.
    split; [reflexivity|]. split; [|exact H2].
    symmetry. eapply Forall2_length; eauto.
  - intros before p after err -> Hb Hp.
    rewrite ListWithPrefix_phases, Hl.
    now rewrite (modTimes_loop_fail lcm fs before p after err [] Hb Hp).
Qed.

(** ** Removal *)

(** Induction on a tree, with the hypothesis for every entry of a directory. *)
Lemma node_rect' (P : node -> Prop)
  (HF : forall c t, P (File c t))
  (HD : forall t s ents, Forall (fun kv => P (snd kv)) ents -> P (Dir t s ents)) :
  forall n, P n.
Proof.
  fix IH 1. intros [c t|t s ents].
  - apply HF.
  - apply HD. induction ents as [|[k m] r IHr]; constructor; auto.
Qed.

Lemma purge_Dir t s ents :
  purge (Dir t s ents)
  = match ents with
    | [] => None
    | _ :: _ =>
        if s then match purge_entries ents with
                  | [] => None
                  | l' => Some (Dir t s l')
                  end
        else Some (Dir t s ents)
    end.
Proof.
  destruct ents as [|[k m] r]; [reflexivity|].
  destruct s; [|reflexivity].
  assert (E : forall l,
    (fix each (l : list (string * node)) : list (string * node) :=
       match l with
       | [] => []
       | (k, m) :: r =>
           match purge m with
           | None => each r
           | Some m' => (k, m') :: each r
           end
       end) l = purge_entries l).
  { induction l as [|[k' m'] r' IHl]; simpl; [reflexivity|].
    destruct (purge m'); now rewrite IHl. }
  simpl. rewrite E. reflexivity.
Qed.

(** What could not be removed cannot be removed the next time either. *)
Lemma purge_fixed : forall n n', purge n = Some n' -> purge n' = Some n'.
Proof.
  induction n as [c t|t s ents IH] using node_rect'; intros n' H.
  - discriminate.
  - rewrite purge_Dir in H. destruct ents as [|kv r] eqn:He; [discriminate|].
    rewrite <- He in *. destruct s.
    + assert (Hfix : purge_entries (purge_entries ents) = purge_entries ents).
      { clear H He. induction ents as [|[k m] r' IHr]; simpl; [reflexivity|].
        inversion IH as [|? ? Hm Hr]; subst. simpl in Hm.
        destruct (purge m) as [m'|] eqn:Hp; simpl.
        - rewrite (Hm m' eq_refl). now rewrite IHr.
        - now apply IHr. }
      destruct (purge_entries ents) as [|kv' r'] eqn:Hpe; [discriminate|].
      inversion H; subst n'. rewrite purge_Dir, Hfix. reflexivity.
    + inversion H; subst n'. rewrite purge_Dir, He. reflexivity.
Qed.

Lemma lookup_replace name v es m :
  lookup name es = Some m -> lookup name (replace name v es) = Some v.
Proof.
  induction es as [|[k w] r IH]; simpl; [discriminate|].
  destruct (k =? name) eqn:Hk; simpl.
  - now rewrite String.eqb_refl.
  - now rewrite Hk.
Qed.

Lemma replace_twice name v es :
  replace name v (replace name v es) = replace name v es.
Proof.
  unfold replace. rewrite map_map. apply map_ext. intros [k w]. simpl.
  destruct (k =? name) eqn:Hk; simpl.
  - now rewrite String.eqb_refl.
  - now rewrite Hk.
Qed.

Lemma lookup_unlink name es : lookup name (unlink name es) = None.
Proof.
  induction es as [|[k w] r IH]; simpl; [reflexivity|].
  destruct (k =? name) eqn:Hk; simpl; [assumption|]. now rewrite Hk.
Qed.

Lemma removeAll_descend t ents e e' rest m :
  too_long e = false ->
  lookup e ents = Some m ->
  removeAll (Dir t true ents) (e :: e' :: rest)
  = (Dir t true (replace e (fst (removeAll m (e' :: rest))) ents),
     snd (removeAll m (e' :: rest))).
Proof.
  intros Hlong Hl.
  change (removeAll (Dir t true ents) (e :: e' :: rest))
    with (if too_long e then (Dir t true ents, Some ENAMETOOLONG)
          else match lookup e ents with
               | None => (Dir t true ents, None)
               | Some m =>
                   let (m', err) := removeAll m (e' :: rest) in
                   (Dir t true (replace e m' ents), err)
               end).
  rewrite Hlong, Hl. now destruct (removeAll m (e' :: rest)).
Qed.

Lemma removeAll_twice es : forall n,
  fst (removeAll (fst (removeAll n es)) es) = fst (removeAll n es).
Proof.
  induction es as [|e rest IH]; intros n.
  - simpl. destruct (purge n) as [n'|] eqn:Hp; simpl.
    + now rewrite (purge_fixed _ _ Hp).
    + destruct n as [c t|t s ents]; reflexivity.
  - destruct n as [c t|t s ents]; [reflexivity|].
    destruct s; [|reflexivity].
    destruct (too_long e) eqn:Hlong.
    { cbn [fst removeAll]. rewrite ?Hlong. cbn [fst removeAll]. now rewrite ?Hlong. }
    destruct (lookup e ents) as [m|] eqn:Hl.
    2:{ cbn [fst removeAll]. rewrite ?Hlong, ?Hl. cbn [fst removeAll].
        now rewrite ?Hlong, ?Hl. }
    destruct rest as [|e' rest'].
    + cbn [removeAll]. rewrite Hlong, Hl.
      destruct (purge m) as [m'|] eqn:Hp; cbn [fst removeAll]; rewrite ?Hlong.
      * rewrite (lookup_replace _ _ _ _ Hl), (purge_fixed _ _ Hp). cbn [fst].
        now rewrite replace_twice.
      * now rewrite lookup_unlink.
    + rewrite (removeAll_descend t ents e e' rest' m Hlong Hl). cbn [fst].
      rewrite (removeAll_descend t _ e e' rest' _ Hlong (lookup_replace _ _ _ _ Hl)).
      cbn [fst]. now rewrite IH, replace_twice.
Qed.

Lemma RemoveAll_twice fs path :
  fst (RemoveAll (fst (RemoveAll fs path)) path) = fst (RemoveAll fs path).
Proof.
  unfold RemoveAll. destruct (path =? "") eqn:Hp; [reflexivity|].
  destruct (endsWithDot path); [reflexivity|].
  destruct (reject path); [reflexivity|].
  pose proof (removeAll_twice (elements path) (tree fs)) as H.
  destruct (removeAll (tree fs) (elements path)) as [t err]. cbn [fst tree clock] in *.
  destruct (removeAll t (elements path)) as [t' err']. cbn [fst] in *. now subst.
Qed.

(** C7. [Remove] of a path that does not exist returns no error and leaves
    the store as it is; and in every store, a second [Remove] of the same path
    leaves the store the first one produced. *)
Theorem Remove_idempotent : forall lcm fs filePath,
  (Exist lcm fs filePath = (false, None) -> Remove lcm fs filePath = (fs, None)) /\
  fst (Remove lcm (fst (Remove lcm fs filePath)) filePath)
  = fst (Remove lcm fs filePath).
Proof.
  intros lcm fs filePath. split.
  - intros H. unfold Remove. now rewrite H.
  - unfold Remove at 2 3.
    destruct (Exist lcm fs filePath) as [ex [err|]] eqn:He.
    + cbn [fst]. unfold Remove. now rewrite He.
    + destruct ex.
      * set (absPath := GoPath.Join (localPath lcm) filePath).
        assert (Hfst : forall r : FS * option error,
                  fst (match r with
                       | (fs1, Some err) => (fs1, Some err)
                       | (fs1, None) => (fs1, None)
                       end) = fst r).
        { intros [fs1 [e|]]; reflexivity. }
        rewrite Hfst. unfold Remove.
        destruct (Exist lcm (fst (RemoveAll fs absPath)) filePath) as [ex' [err'|]];
          [reflexivity|].
        destruct ex'; [|reflexivity].
        fold absPath. rewrite Hfst. apply RemoveAll_twice.
      * cbn [fst]. unfold Remove. now rewrite He.
Qed.

(** ** Listing: the walk *)

Section Gather.
Variable lcm : LocalChunkManager.
Variable absPrefix : string.

(** The function literal of [ListWithPrefix], run over a sequence of
    entries. *)
Fixpoint gather (es : list entry) (st : list string)
  : outcome (list string * option error) :=
  match es with
  | [] => Ret (st, None)
  | e :: r =>
      match walkFn lcm absPrefix (e_path e) (e_info e) None st with
      | Panic => Panic
      | Ret (st', Some e) => Ret (st', Some e)
      | Ret (st', None) => gather r st'
      end
  end.

Lemma walkFn_err p f err st :
  walkFn lcm absPrefix p f err st = walkFn lcm absPrefix p f None st.
Proof. reflexivity. Qed.

Lemma walkFn_no_error p f err st st' e :
  walkFn lcm absPrefix p f err st <> Ret (st', Some e).
Proof.
  unfold walkFn. destruct (GoStrings.HasPrefix p absPrefix); [|discriminate].
  destruct f as [fi|]; [|discriminate]. destruct (negb (IsDir fi)); discriminate.
Qed.

Lemma gather_no_error es : forall st st' e, gather es st <> Ret (st', Some e).
Proof.
  induction es as [|[p q f] r IH]; intros st st' e; simpl; [discriminate|].
  destruct (walkFn lcm absPrefix p f None st) as [|[st1 [e1|]]] eqn:Hw.
  - discriminate.
  - exfalso. eapply walkFn_no_error; eauto.
  - apply IH.
Qed.

Lemma gather_app es1 : forall es2 st,
  gather (es1 ++ es2) st
  = match gather es1 st with
    | Panic => Panic
    | Ret (st', Some e) => Ret (st', Some e)
    | Ret (st', None) => gather es2 st'
    end.
Proof.
  induction es1 as [|[p q f] r IH]; intros es2 st; simpl; [reflexivity|].
  destruct (walkFn lcm absPrefix p f None st) as [|[st1 [e1|]]]; auto.
Qed.

(** The walk hands the entries of [visit] to the function literal, one
    after the other. *)
Lemma walk_gather : forall n path pos st,
  walk (walkFn lcm absPrefix) path n st = gather (visit path pos n) st.
Proof.
  induction n as [c t|t s ents IH] using node_rect'; intros path pos st.
  - cbn [walk visit gather e_path e_info].
    destruct (walkFn lcm absPrefix path _ None st) as [|[st1 [e1|]]]; reflexivity.
  - cbn [walk visit gather e_path e_info].
    destruct (walkFn lcm absPrefix path _ None st) as [|[st1 [e1|]]]; try reflexivity.
    clear st. revert st1.
    induction ents as [|[name m] r IHr]; intros st1; [reflexivity|].
    inversion IH as [|? ? Hm Hr]; subst. cbn [snd] in Hm.
    cbn [flat_map fst snd]. rewrite gather_app.
    destruct s; [destruct (refused (GoPath.Join path name) name) as [err|]|].
    + cbn [gather e_path e_info]. rewrite walkFn_err.
      destruct (walkFn lcm absPrefix (GoPath.Join path name) None None st1)
        as [|[st2 [e2|]]]; try reflexivity.
      now apply IHr.
    + rewrite (Hm _ (pos ++ [name])).
      destruct (gather (visit (GoPath.Join path name) (pos ++ [name]) m) st1)
        as [|[st2 [e2|]]]; try reflexivity.
      now apply IHr.
    + cbn [gather e_path e_info]. rewrite walkFn_err.
      destruct (walkFn lcm absPrefix (GoPath.Join path name) None None st1)
        as [|[st2 [e2|]]]; try reflexivity.
      now apply IHr.
Qed.

Lemma Walk_gather fs root st :
  Walk (walkFn lcm absPrefix) fs root st = gather (visited fs root) st.
Proof.
  unfold Walk, visited. destruct (locate fs root) as [err|n].
  - cbn [gather e_path e_info]. rewrite walkFn_err.
    destruct (walkFn lcm absPrefix root None None st) as [|[st1 [e1|]]]; reflexivity.
  - apply walk_gather.
Qed.

(** What the function literal has gathered at the end, or its panic. *)
Lemma gather_eq es : forall st,
  gather es st
  = if existsb (unknown_under absPrefix) es then Panic
    else Ret (st ++ map (fun e => GoStrings.TrimPrefix (e_path e) (localPath lcm))
                      (filter (file_under absPrefix) es), None).
Proof.
  induction es as [|[p q f] r IH]; intros st.
  - simpl. now rewrite app_nil_r.
  - cbn [gather existsb filter]. unfold walkFn, unknown_under at 1, file_under at 1.
    cbn [e_path e_info].
    destruct (GoStrings.HasPrefix p absPrefix); cbn [andb orb].
    + destruct f as [fi|]; [|reflexivity].
      destruct (negb (IsDir fi)); cbn [orb]; rewrite IH.
      * destruct (existsb _ r); [reflexivity|].
        cbn [map e_path]. now rewrite <- app_assoc.
      * reflexivity.
    + apply IH.
Qed.
End Gather.

Lemma listing_recursive lcm Glob fs prefix :
  let absPrefix := GoPath.Join (localPath lcm) prefix in
  listing lcm Glob fs prefix true
  = if existsb (unknown_under absPrefix) (visited fs (GoPath.Dir absPrefix)) then Panic
    else Ret (map (fun e => GoStrings.TrimPrefix (e_path e) (localPath lcm))
                (filter (file_under absPrefix) (visited fs (GoPath.Dir absPrefix))),
              None).
Proof.
  intros absPrefix. unfold listing. fold absPrefix.
  now rewrite Walk_gather, gather_eq.
Qed.

Lemma ListWithPrefix_recursive lcm Glob fs prefix filePaths modTimes err :
  ListWithPrefix lcm Glob fs prefix true = Ret (filePaths, modTimes, err) ->
  let absPrefix := GoPath.Join (localPath lcm) prefix in
  existsb (unknown_under absPrefix) (visited fs (GoPath.Dir absPrefix)) = false /\
  filePaths = map (fun e => GoStrings.TrimPrefix (e_path e) (localPath lcm))
                (filter (file_under absPrefix) (visited fs (GoPath.Dir absPrefix))).
Proof.
  intros H absPrefix. rewrite ListWithPrefix_phases, listing_recursive in H.
  fold absPrefix in H.
  destruct (existsb _ _); [discriminate|]. split; [reflexivity|].
  destruct (modTimes_loop _ _ _ _) as [ts [e|]]; now inversion H.
Qed.

(** C3. A recursive [ListWithPrefix] walks the tree at the parent directory
    of the resolved prefix and returns, for every entry met that is not a
    directory and whose path starts with the resolved prefix character by
    character, that path with the root taken off its front.  Under the root
    [/data/], over [a/b/x.txt], [a/b/c/y.txt] and [a/bc/z.txt], the prefix
    [a/b] lists all three. *)
Theorem ListWithPrefix_literal_prefix :
  (forall lcm Glob fs prefix filePaths modTimes err,
     ListWithPrefix lcm Glob fs prefix true = Ret (filePaths, modTimes, err) ->
     let absPrefix := GoPath.Join (localPath lcm) prefix in
     filePaths = map (fun e => GoStrings.TrimPrefix (e_path e) (localPath lcm))
                   (filter (file_under absPrefix) (visited fs (GoPath.Dir absPrefix)))) /\
  (forall Glob,
     ListWithPrefix dataLCM Glob treeFS "a/b" true
     = Ret (["a/b/c/y.txt"; "a/b/x.txt"; "a/bc/z.txt"], [2; 1; 3]%Z, None)).
Proof.
  split.
  - intros lcm Glob fs prefix filePaths modTimes err H.
    apply (ListWithPrefix_recursive _ _ _ _ _ _ _ H).
  - intros Glob. vm_compute. reflexivity.
Qed.

(** C10, at an input where it fails.  The directory [/data/a] can be listed
    but not searched, so the walk reports its entry [b] with an error and no
    [FileInfo]; the path [/data/a/b] starts with the resolved prefix, the
    function literal calls [IsDir] on the missing [FileInfo], and
    [ListWithPrefix] panics. *)
Theorem ListWithPrefix_panics_on_unexamined_entry :
  visited lockedFS (GoPath.Dir (GoPath.Join (localPath dataLCM) "a/b"))
  = [mkEntry "/data/a" ["data"; "a"] (Some (mkInfo true 1 4096));
     mkEntry "/data/a/b" ["data"; "a"; "b"] None] /\
  ListWithPrefix dataLCM noGlob lockedFS "a/b" true = Panic.
Proof. split; vm_compute; reflexivity. Qed.

(** C1, at an input where it fails.  [Write] asks [Exist] about the parent
    directory with a path that holds the root already, so the root is joined
    a second time: with the root [/data], once [data/a/y] is stored, a write to
    [a/x] finds [/data/data/a], takes the parent [/data/a] to be there, skips
    [MkdirAll], and fails with [ENOENT]. *)
Theorem Write_checks_parent_under_doubled_root :
  let fs1 := fst (Write rootLCM freshFS "data/a/y" [x01]) in
  snd (Write rootLCM freshFS "data/a/y" [x01]) = None /\
  GoPath.Dir (GoPath.Join (localPath rootLCM) "a/x") = "/data/a" /\
  Stat fs1 "/data/a" = inl ENOENT /\
  Exist rootLCM fs1 "/data/a" = (true, None) /\
  Write rootLCM fs1 "a/x" [x02] = (fs1, Some ENOENT).
Proof. vm_compute. repeat split. Qed.


(** C9 fails as stated: with the root [/data] and the empty prefix, the walk
    also meets [/database/x], whose path starts with [/data]; it is listed as
    [base/x], which names [/data/base/x].  [RemoveWithPrefix] returns no
    error, [/database/x] stays, and the next listing is not empty. *)
Lemma RemoveWithPrefix_leaves_sibling :
  exists fs',
    RemoveWithPrefix rootLCM noGlob siblingFS "" = Ret (fs', None) /\
    ListWithPrefix rootLCM noGlob fs' "" true = Ret (["base/x"], [], Some ENOENT).
Proof. eexists. split; vm_compute; reflexivity. Qed.

(** ** Paths *)

Lemma length_append (a b : string) :
  String.length (a ++ b) = (String.length a + String.length b)%nat.
Proof. induction a as [|c a IH]; simpl; auto. Qed.

Lemma prefix_length (a b : string) :
  String.prefix a b = true -> (String.length a <= String.length b)%nat.
Proof.
  revert b. induction a as [|c a IH]; intros b H; simpl; [lia|].
  destruct b as [|d b]; [discriminate|]. simpl in H.
  destruct (ascii_dec c d); [|discriminate]. apply IH in H. simpl. lia.
Qed.

Lemma prefix_same_length (a b : string) :
  String.prefix a b = true -> String.length a = String.length b -> a = b.
Proof.
  revert b. induction a as [|c a IH]; intros b H Hl.
  - destruct b; [reflexivity|discriminate].
  - destruct b as [|d b]; [discriminate|]. simpl in H.
    destruct (ascii_dec c d); [|discriminate]. subst d.
    f_equal. apply IH; auto.
Qed.

Lemma split_cons s : exists h t, GoPath.split s = h :: t.
Proof.
  destruct s as [|c r]; simpl; [eauto|].
  destruct (Ascii.eqb c GoPath.slash); [eauto|].
  destruct (GoPath.split r); eauto.
Qed.

Lemma span_split s : span (GoPath.split s) = S (String.length s).
Proof.
  induction s as [|c r IH]; [reflexivity|]. simpl.
  destruct (Ascii.eqb c GoPath.slash).
  - unfold span in *. simpl. now rewrite IH.
  - destruct (GoPath.split r) as [|h t]; unfold span in *; simpl in *; lia.
Qed.

Lemma split_no_slash s : Forall (fun e => GoPath.has_slash e = false) (GoPath.split s).
Proof.
  induction s as [|c r IH]; simpl; [repeat constructor|].
  destruct (Ascii.eqb c GoPath.slash) eqn:Hc; [constructor; auto|].
  destruct (GoPath.split r) as [|h t]; simpl.
  - repeat constructor. simpl. now rewrite Hc.
  - inversion IH; subst. constructor; [|assumption]. simpl. now rewrite Hc.
Qed.

Lemma span_app l l' : span (l ++ l') = (span l + span l')%nat.
Proof. unfold span. now rewrite map_app, list_sum_app. Qed.

Lemma span_rev l : span (rev l) = span l.
Proof.
  induction l as [|x r IH]; [reflexivity|]. simpl. rewrite span_app, IH.
  unfold span. simpl. lia.
Qed.

Lemma length_concat l :
  l <> [] -> S (String.length (String.concat "/" l)) = span l.
Proof.
  induction l as [|x r IH]; intros Hne; [congruence|].
  destruct r as [|y r'].
  - unfold span. simpl. lia.
  - change (String.concat "/" (x :: y :: r'))
      with (x ++ "/" ++ String.concat "/" (y :: r'))%string.
    rewrite !length_append. change (String.length "/") with 1%nat.
    specialize (IH ltac:(discriminate)).
    assert (Hx : span (x :: y :: r') = (S (String.length x) + span (y :: r'))%nat)
      by reflexivity.
    lia.
Qed.

(** A step of [Clean] adds no more than the element it reads, and nothing
    for an empty element. *)
Lemma span_clean_step root out e :
  (span (GoPath.clean_step root out e)
   <= span out + (if (e =? "")%string then 0 else S (String.length e)))%nat.
Proof.
  unfold GoPath.clean_step.
  destruct (e =? "") eqn:E0; simpl; [lia|].
  destruct (e =? ".") eqn:E1; simpl; [lia|].
  destruct (e =? "..") eqn:E2.
  - apply String.eqb_eq in E2. subst e.
    destruct out as [|top rest].
    + destruct root; unfold span; simpl; lia.
    + destruct (top =? ".."); [destruct root|]; unfold span; simpl; lia.
  - unfold span. simpl. lia.
Qed.

Lemma span_clean_fold root es : forall out,
  (span (fold_left (GoPath.clean_step root) es out) <= span out + span es)%nat.
Proof.
  induction es as [|e r IH]; intros out; simpl; [unfold span; simpl; lia|].
  specialize (IH (GoPath.clean_step root out e)).
  pose proof (span_clean_step root out e) as Hs.
  assert (span (e :: r) = S (String.length e) + span r)%nat by reflexivity.
  destruct (e =? ""); lia.
Qed.

Lemma clean_step_empty root out : GoPath.clean_step root out "" = out.
Proof. reflexivity. Qed.

Lemma length_render root es :
  String.length (GoPath.render root es)
  = match es with
    | [] => 1%nat
    | _ :: _ => if root then span es else (span es - 1)%nat
    end.
Proof.
  destruct es as [|x l]; [now destruct root|].
  pose proof (length_concat (x :: l) ltac:(discriminate)) as Hl.
  unfold GoPath.render. destruct root.
  - rewrite length_append. change (String.length "/") with 1%nat. lia.
  - lia.
Qed.

(** [Clean] never makes a path longer, the empty path apart. *)
Lemma length_Clean s :
  s <> "" -> (String.length (GoPath.Clean s) <= String.length s)%nat.
Proof.
  intros Hne. unfold GoPath.Clean.
  destruct (s =? "") eqn:E; [apply String.eqb_eq in E; congruence|].
  rewrite length_render. unfold GoPath.clean_elems.
  pose proof (span_clean_fold (GoPath.rooted s) (GoPath.split s) []) as Hs.
  rewrite <- span_rev in Hs. change (span []) with 0%nat in Hs.
  assert (Hroot : GoPath.rooted s = true ->
            (span (rev (fold_left (GoPath.clean_step true) (GoPath.split s) []))
             <= String.length s)%nat).
  { destruct s as [|c r]; [discriminate|]. cbn [GoPath.rooted GoPath.split].
    intros Hc. rewrite Hc. cbn [fold_left]. rewrite clean_step_empty.
    pose proof (span_clean_fold true (GoPath.split r) []) as Hr.
    rewrite <- span_rev, span_split in Hr. change (span []) with 0%nat in Hr.
    cbn [String.length]. lia. }
  rewrite span_split in Hs.
  assert (Hlen : (1 <= String.length s)%nat) by (destruct s; [congruence|simpl; lia]).
  destruct (GoPath.rooted s).
  - specialize (Hroot eq_refl).
    destruct (rev (fold_left (GoPath.clean_step true) (GoPath.split s) [])); lia.
  - destruct (rev (fold_left (GoPath.clean_step false) (GoPath.split s) [])); lia.
Qed.

Lemma clean_step_plain root out e :
  Forall plain out -> GoPath.has_slash e = false ->
  Forall plain (GoPath.clean_step root out e).
Proof.
  intros Hout He. unfold GoPath.clean_step.
  destruct (e =? "") eqn:E0; simpl; [assumption|].
  destruct (e =? ".") eqn:E1; simpl; [assumption|].
  destruct (e =? "..") eqn:E2.
  - destruct out as [|top rest].
    + destruct root; repeat constructor; discriminate.
    + destruct (top =? "..").
      * destruct root; [assumption|]. constructor; [|assumption].
        split; [discriminate|reflexivity].
      * now inversion Hout.
  - constructor; [|assumption]. split; [|assumption].
    now apply String.eqb_neq.
Qed.

Lemma clean_elems_plain root s : Forall plain (GoPath.clean_elems root (GoPath.split s)).
Proof.
  unfold GoPath.clean_elems. apply Forall_rev.
  assert (H : forall es out, Forall (fun e => GoPath.has_slash e = false) es ->
            Forall plain out -> Forall plain (fold_left (GoPath.clean_step root) es out)).
  { induction es as [|e r IH]; intros out Hes Hout; [assumption|].
    inversion Hes; subst. simpl. apply IH; [assumption|].
    now apply clean_step_plain. }
  apply H; [apply split_no_slash|constructor].
Qed.

Lemma ends_with_slash_plain x : GoPath.has_slash x = false -> ends_with_slash x = false.
Proof.
  induction x as [|c r IH]; [reflexivity|]. simpl. intros H.
  apply orb_false_iff in H. destruct H as [Hc Hr].
  destruct r; [exact Hc|now apply IH].
Qed.

Lemma ends_with_slash_append (a b : string) :
  b <> "" -> ends_with_slash (a ++ b) = ends_with_slash b.
Proof.
  intros Hb. induction a as [|c a IH]; [reflexivity|].
  simpl. destruct (a ++ b)%string eqn:E; [|exact IH].
  destruct a; simpl in E; congruence.
Qed.

Lemma ends_with_slash_concat es :
  Forall plain es -> ends_with_slash (String.concat "/" es) = false.
Proof.
  induction es as [|x r IH]; intros H; [reflexivity|].
  inversion H as [|? ? [Hx Hs] Hr]; subst.
  destruct r as [|y r'].
  - simpl. now apply ends_with_slash_plain.
  - change (String.concat "/" (x :: y :: r'))
      with (x ++ String "/" (String.concat "/" (y :: r')))%string.
    rewrite ends_with_slash_append by discriminate.
    specialize (IH Hr).
    assert (Hne : String.concat "/" (y :: r') <> "").
    { inversion Hr as [|? ? [Hy _] _]; subst.
      destruct y; [congruence|]. destruct r'; discriminate. }
    remember (String.concat "/" (y :: r')) as c eqn:Ec.
    destruct c as [|a c']; [congruence|exact IH].
Qed.

(** The only path out of [Clean] that ends with a slash is the root. *)
Lemma Clean_ends_with_slash s :
  ends_with_slash (GoPath.Clean s) = true -> elements (GoPath.Clean s) = [].
Proof.
  unfold GoPath.Clean. destruct (s =? ""); [discriminate|].
  pose proof (clean_elems_plain (GoPath.rooted s) s) as Hp.
  destruct (GoPath.clean_elems (GoPath.rooted s) (GoPath.split s)) as [|x l] eqn:El.
  - destruct (GoPath.rooted s); [reflexivity|discriminate].
  - pose proof (ends_with_slash_concat _ Hp) as He.
    unfold GoPath.render. destruct (GoPath.rooted s).
    + rewrite ends_with_slash_append; [congruence|].
      inversion Hp as [|? ? [Hx _] _]; subst.
      destruct x; [congruence|]. destruct l; discriminate.
    + congruence.
Qed.

Lemma prefix_upto_last_slash s : String.prefix (GoPath.upto_last_slash s) s = true.
Proof.
  induction s as [|c r IH]; [reflexivity|].
  cbn [GoPath.upto_last_slash]. destruct (GoPath.has_slash (String c r)); [|reflexivity].
  simpl. destruct (ascii_dec c c); [exact IH|congruence].
Qed.

Lemma upto_last_slash_ends s :
  GoPath.upto_last_slash s <> "" -> ends_with_slash (GoPath.upto_last_slash s) = true.
Proof.
  induction s as [|c r IH]; [intros H; exfalso; now apply H|].
  cbn [GoPath.upto_last_slash].
  destruct (GoPath.has_slash (String c r)) eqn:Hs; [|intros H; exfalso; now apply H].
  intros _. destruct (GoPath.upto_last_slash r) as [|d u] eqn:Hu.
  - assert (Hr : GoPath.has_slash r = false).
    { destruct r as [|d r']; [reflexivity|]. cbn [GoPath.upto_last_slash] in Hu.
      destruct (GoPath.has_slash (String d r')); [discriminate|reflexivity]. }
    cbn [GoPath.has_slash] in Hs. rewrite Hr, orb_false_r in Hs. exact Hs.
  - simpl. apply IH. discriminate.
Qed.

(** The directory [Dir] gives for a path starts with that path only when it
    is the root of the tree. *)
Lemma Dir_under_itself absPrefix :
  GoStrings.HasPrefix (GoPath.Dir absPrefix) absPrefix = true ->
  elements (GoPath.Dir absPrefix) = [].
Proof.
  unfold GoStrings.HasPrefix, GoPath.Dir. intros H.
  destruct (GoPath.upto_last_slash absPrefix) as [|c u] eqn:Hu; [reflexivity|].
  rewrite <- Hu in *.
  assert (Hne : GoPath.upto_last_slash absPrefix <> "") by (rewrite Hu; discriminate).
  pose proof (prefix_length _ _ H) as H1.
  pose proof (length_Clean _ Hne) as H2.
  pose proof (prefix_upto_last_slash absPrefix) as H3.
  pose proof (prefix_length _ _ H3) as H4.
  assert (E1 : GoPath.upto_last_slash absPrefix = absPrefix)
    by (apply prefix_same_length; [assumption|lia]).
  assert (E2 : absPrefix = GoPath.Clean (GoPath.upto_last_slash absPrefix))
    by (apply prefix_same_length; [assumption|lia]).
  apply Clean_ends_with_slash. rewrite <- E2, <- E1.
  now apply upto_last_slash_ends.
Qed.

Lemma Clean_not_empty s : GoPath.Clean s <> "".
Proof.
  unfold GoPath.Clean. destruct (s =? ""); [discriminate|].
  pose proof (clean_elems_plain (GoPath.rooted s) s) as Hp.
  unfold GoPath.render. destruct (GoPath.rooted s); [discriminate|].
  destruct (GoPath.clean_elems false (GoPath.split s)) as [|x l]; [discriminate|].
  inversion Hp as [|? ? [Hx _] _]; subst.
  destruct x; [congruence|]. destruct l; discriminate.
Qed.

Lemma Dir_not_empty s : GoPath.Dir s <> "".
Proof. apply Clean_not_empty. Qed.

Lemma Join_empty a b : GoPath.Join a b = "" -> a = "" /\ b = "".
Proof.
  unfold GoPath.Join.
  destruct (a =? "") eqn:Ea; destruct (b =? "") eqn:Eb; cbn [andb]; intros H;
    try (exfalso; eapply Clean_not_empty; eassumption).
  apply String.eqb_eq in Ea, Eb. auto.
Qed.

Lemma TrimPrefix_empty s : GoStrings.TrimPrefix s "" = s.
Proof. unfold GoStrings.TrimPrefix, GoStrings.HasPrefix. now destruct s. Qed.

Lemma Clean_slash_is_root s :
  ends_with_slash (GoPath.Clean s) = true -> GoPath.Clean s = "/".
Proof.
  unfold GoPath.Clean. destruct (s =? ""); [discriminate|].
  pose proof (clean_elems_plain (GoPath.rooted s) s) as Hp.
  destruct (GoPath.clean_elems (GoPath.rooted s) (GoPath.split s)) as [|x l] eqn:El.
  - destruct (GoPath.rooted s); [reflexivity|discriminate].
  - pose proof (ends_with_slash_concat _ Hp) as He.
    unfold GoPath.render. destruct (GoPath.rooted s).
    + rewrite ends_with_slash_append; [congruence|].
      inversion Hp as [|? ? [Hx _] _]; subst.
      destruct x; [congruence|]. destruct l; discriminate.
    + congruence.
Qed.

(** The directory [Dir] gives for a path starts with that path only when it
    is [.] or [/], and these the system accepts. *)
Lemma Dir_root absPrefix :
  GoStrings.HasPrefix (GoPath.Dir absPrefix) absPrefix = true ->
  GoPath.Dir absPrefix = "." \/ GoPath.Dir absPrefix = "/".
Proof.
  unfold GoStrings.HasPrefix, GoPath.Dir. intros H.
  destruct (GoPath.upto_last_slash absPrefix) as [|c u] eqn:Hu; [now left|].
  rewrite <- Hu in *. right.
  assert (Hne : GoPath.upto_last_slash absPrefix <> "") by (rewrite Hu; discriminate).
  pose proof (prefix_length _ _ H) as H1.
  pose proof (length_Clean _ Hne) as H2.
  pose proof (prefix_upto_last_slash absPrefix) as H3.
  pose proof (prefix_length _ _ H3) as H4.
  assert (E1 : GoPath.upto_last_slash absPrefix = absPrefix)
    by (apply prefix_same_length; [assumption|lia]).
  assert (E2 : absPrefix = GoPath.Clean (GoPath.upto_last_slash absPrefix))
    by (apply prefix_same_length; [assumption|lia]).
  apply Clean_slash_is_root. rewrite <- E2, <- E1.
  now apply upto_last_slash_ends.
Qed.

Lemma reject_Dir_root absPrefix :
  GoStrings.HasPrefix (GoPath.Dir absPrefix) absPrefix = true ->
  reject (GoPath.Dir absPrefix) = None.
Proof. intros H. destruct (Dir_root _ H) as [-> | ->]; reflexivity. Qed.

(** ** Removal by prefix *)

Lemma lookup_unlink_other name name' es :
  (name' =? name) = false -> lookup name (unlink name' es) = lookup name es.
Proof.
  intros Hne. induction es as [|[k w] r IH]; simpl; [reflexivity|].
  destruct (k =? name') eqn:Hk; simpl.
  - apply String.eqb_eq in Hk. subst k. now rewrite Hne.
  - now rewrite IH.
Qed.

Lemma lookup_replace_other name name' v es :
  (name' =? name) = false -> lookup name (replace name' v es) = lookup name es.
Proof.
  intros Hne. induction es as [|[k w] r IH]; simpl; [reflexivity|].
  destruct (k =? name') eqn:Hk; simpl.
  - apply String.eqb_eq in Hk. subst k. now rewrite Hne.
  - now rewrite IH.
Qed.

Lemma removeAll_root n n' : removeAll n [] <> (n', None).
Proof. simpl. destruct (purge n); discriminate. Qed.

(** The cases of a removal that succeeds below a directory. *)
Lemma removeAll_ok_cases t s ents e rest n' :
  removeAll (Dir t s ents) (e :: rest) = (n', None) ->
  s = true /\ too_long e = false /\
  (lookup e ents = None /\ n' = Dir t s ents \/
   exists m, lookup e ents = Some m /\
     (rest = [] /\ purge m = None /\ n' = Dir t s (unlink e ents) \/
      rest <> [] /\ exists m', removeAll m rest = (m', None) /\
                               n' = Dir t s (replace e m' ents))).
Proof.
  cbn [removeAll]. destruct s; [|discriminate].
  destruct (too_long e); [discriminate|]. intros H. do 2 (split; [reflexivity|]).
  destruct (lookup e ents) as [m|]; [|left; now inversion H].
  right. exists m. split; [reflexivity|].
  destruct rest as [|e' rest'].
  - left. destruct (purge m); [discriminate|]. now inversion H.
  - right. split; [discriminate|].
    destruct (removeAll m (e' :: rest')) as [m' err]. inversion H; subst. eauto.
Qed.

(** What a removal took away is not found any more. *)
Lemma find_removed q : forall n n' m,
  removeAll n q = (n', None) -> find n q = inr m -> find n' q = inl ENOENT.
Proof.
  induction q as [|e rest IH]; intros n n' m Hr Hf.
  - exfalso. eapply removeAll_root; eauto.
  - destruct n as [c t|t s ents]; [discriminate|].
    destruct (removeAll_ok_cases _ _ _ _ _ _ Hr)
      as (-> & Hlong & [(Hl & ->)|(m0 & Hl & [(-> & Hp & ->)|(Hne & m' & Hm & ->)])]);
      cbn [find] in Hf |- *; rewrite Hlong, Hl in *.
    + discriminate.
    + now rewrite lookup_unlink.
    + rewrite (lookup_replace _ _ _ _ Hl). eauto.
Qed.

(** What was missing stays missing through a removal. *)
Lemma find_missing_removeAll q : forall n n' q',
  find n q = inl ENOENT -> removeAll n q' = (n', None) -> find n' q = inl ENOENT.
Proof.
  induction q as [|e rest IH]; intros n n' q' Hf Hr; [discriminate|].
  destruct q' as [|e' rest']; [exfalso; eapply removeAll_root; eauto|].
  destruct n as [c t|t s ents]; [discriminate|].
  destruct (removeAll_ok_cases _ _ _ _ _ _ Hr)
    as (-> & Hlong & [(Hl & ->)|(m0 & Hl & [(-> & Hp & ->)|(Hne & m' & Hm & ->)])]);
    cbn [find] in Hf |- *.
  - exact Hf.
  - destruct (too_long e); [discriminate|]. destruct (e' =? e) eqn:He.
    + apply String.eqb_eq in He. subst e'. now rewrite lookup_unlink.
    + now rewrite (lookup_unlink_other _ _ _ He).
  - destruct (too_long e); [discriminate|]. destruct (e' =? e) eqn:He.
    + apply String.eqb_eq in He. subst e'. rewrite Hl in Hf.
      rewrite (lookup_replace _ _ _ _ Hl). eauto.
    + now rewrite (lookup_replace_other _ _ _ _ He).
Qed.

Lemma locate_tree fs fs' name : tree fs' = tree fs -> locate fs' name = locate fs name.
Proof. unfold locate. now intros ->. Qed.

Lemma Remove_ok_cases lcm fs p fs' :
  Remove lcm fs p = (fs', None) ->
  let absPath := GoPath.Join (localPath lcm) p in
  (fs' = fs /\ locate fs absPath = inl ENOENT) \/
  (exists m t', reject absPath = None /\ find (tree fs) (elements absPath) = inr m /\
                removeAll (tree fs) (elements absPath) = (t', None) /\
                fs' = mkFS t' (clock fs)).
Proof.
  intros H absPath. unfold Remove, Exist, Stat in H. fold absPath in H.
  destruct (locate fs absPath) as [err|m] eqn:Hf.
  - left. destruct err; simpl in H; try discriminate. now inversion H.
  - right. destruct (locate_inr _ _ _ Hf) as [Hr Hfind].
    unfold RemoveAll in H. destruct (absPath =? "") eqn:E.
    { apply String.eqb_eq in E. rewrite E in Hr. discriminate. }
    destruct (endsWithDot absPath); [discriminate|]. rewrite Hr in H.
    destruct (removeAll (tree fs) (elements absPath)) as [t' [err|]]; [discriminate|].
      inversion H; subst. eauto 10.
Qed.

Lemma Exist_missing lcm fs p :
  locate fs (GoPath.Join (localPath lcm) p) = inl ENOENT ->
  Exist lcm fs p = (false, None).
Proof. unfold Exist, Stat. now intros ->. Qed.

Lemma missing_Exist lcm fs p :
  Exist lcm fs p = (false, None) ->
  locate fs (GoPath.Join (localPath lcm) p) = inl ENOENT.
Proof.
  unfold Exist, Stat. destruct (locate _ _) as [err|m]; [|discriminate].
  destruct err; simpl; intros H; try discriminate. reflexivity.
Qed.

(** After a [Remove] that succeeded the path does not exist, and a path that
    does not exist is not brought back by a [Remove] of another one. *)
Lemma Remove_then_missing lcm fs p fs' :
  Remove lcm fs p = (fs', None) -> Exist lcm fs' p = (false, None).
Proof.
  intros H. apply Exist_missing.
  destruct (Remove_ok_cases _ _ _ _ H) as [(-> & Hf)|(m & t' & Hrj & Hf & Hr & ->)];
    [exact Hf|].
  rewrite (locate_accept _ _ Hrj). simpl. eapply find_removed; eauto.
Qed.

Lemma Remove_keeps_missing lcm fs p p' fs' :
  Exist lcm fs p = (false, None) -> Remove lcm fs p' = (fs', None) ->
  Exist lcm fs' p = (false, None).
Proof.
  intros He H. apply Exist_missing. apply missing_Exist in He.
  destruct (Remove_ok_cases _ _ _ _ H) as [(-> & Hf)|(m & t' & Hrj & Hf & Hr & ->)];
    [exact He|].
  destruct (locate_ENOENT _ _ He) as [E|[Hrp Hfp]].
  - rewrite E. reflexivity.
  - rewrite (locate_accept _ _ Hrp). simpl. eapply find_missing_removeAll; eauto.
Qed.

Lemma removed_all_missing lcm ps : forall fs,
  Forall (fun r => r = None) (item_results (Remove lcm) fs ps) ->
  Forall (fun p => Exist lcm (final_state (Remove lcm) fs ps) p = (false, None)) ps.
Proof.
  induction ps as [|p r IH]; intros fs H; [constructor|].
  simpl in H. inversion H as [|? ? H1 H2]; subst.
  destruct (Remove lcm fs p) as [fs1 e] eqn:Hr. simpl in H1, H2. subst e.
  simpl. rewrite Hr. simpl. constructor; [|now apply IH].
  clear IH H. pose proof (Remove_then_missing _ _ _ _ Hr) as Hm. clear Hr.
  revert fs1 Hm H2. induction r as [|p' r IHr]; intros fs1 Hm H2; [exact Hm|].
  simpl in H2. inversion H2 as [|? ? H3 H4]; subst.
  destruct (Remove lcm fs1 p') as [fs2 e'] eqn:Hr'. simpl in H3, H4. subst e'.
  simpl. rewrite Hr'. simpl.
  apply (IHr fs2); auto.
  eapply Remove_keeps_missing; eauto.
Qed.

Lemma lookup_In name es m : lookup name es = Some m -> In (name, m) es.
Proof.
  induction es as [|[k w] r IH]; simpl; [discriminate|].
  destruct (k =? name) eqn:Hk.
  - apply String.eqb_eq in Hk. intros H. inversion H; subst. now left.
  - auto.
Qed.

Lemma lookup_None_In name es k m :
  lookup name es = None -> In (k, m) es -> k <> name.
Proof.
  induction es as [|[k' w] r IH]; simpl; [tauto|].
  destruct (k' =? name) eqn:Hk; [discriminate|].
  intros Hl [H|H]; [|auto]. inversion H; subst. now apply String.eqb_neq.
Qed.

Lemma lookup_distinct es : forall k m,
  distinct (map fst es) = true -> In (k, m) es -> lookup k es = Some m.
Proof.
  induction es as [|[k' w] r IH]; intros k m Hd Hin; [destruct Hin|].
  simpl in Hd. apply andb_true_iff in Hd. destruct Hd as [Hfresh Hd].
  simpl. destruct Hin as [H|H].
  - inversion H; subst. now rewrite String.eqb_refl.
  - destruct (k' =? k) eqn:Hk; [|now apply IH].
    apply String.eqb_eq in Hk. subst k'. exfalso.
    apply negb_true_iff in Hfresh.
    assert (He : existsb (String.eqb k) (map fst r) = true).
    { apply existsb_exists. exists k. split; [|apply String.eqb_refl].
      apply in_map_iff. now exists (k, m). }
    congruence.
Qed.

Lemma visit_In_Dir t s ents path pos e :
  In e (visit path pos (Dir t s ents)) <->
  e = mkEntry path pos (Some (info_of (Dir t s ents))) \/
  exists k m, In (k, m) ents /\
    (if examined s path k then In e (visit (GoPath.Join path k) (pos ++ [k]) m)
     else e = mkEntry (GoPath.Join path k) (pos ++ [k]) None).
Proof.
  cbn [visit In]. rewrite in_flat_map. unfold examined. split.
  - intros [H|([k m] & Hin & H)]; [left; now symmetry|right].
    exists k, m. split; [exact Hin|]. cbn [fst snd] in H.
    destruct s; cbn [andb]; [destruct (refused _ _)|]; try exact H;
      destruct H as [H|[]]; now symmetry.
  - intros [H|(k & m & Hin & H)]; [left; now symmetry|right].
    exists (k, m). split; [exact Hin|]. cbn [fst snd].
    destruct s; cbn [andb] in H; [destruct (refused _ _)|]; try exact H;
      left; now symmetry.
Qed.

Lemma examined_not_long s path k : examined s path k = true -> s = true /\ too_long k = false.
Proof.
  unfold examined, refused. intros H. apply andb_true_iff in H. destruct H as [-> H].
  split; [reflexivity|]. destruct (reject _); [discriminate|].
  now destruct (too_long k).
Qed.

(** The entries below [pos] have positions that go through [pos]. *)
Lemma visit_pos : forall n path pos e,
  In e (visit path pos n) -> exists rel, e_pos e = pos ++ rel.
Proof.
  induction n as [c t|t s ents IH] using node_rect'; intros path pos e H.
  - destruct H as [<-|[]]. exists []. simpl. now rewrite app_nil_r.
  - apply visit_In_Dir in H. destruct H as [->|(k & m & Hin & H)].
    + exists []. simpl. now rewrite app_nil_r.
    + destruct (examined s path k).
      * rewrite Forall_forall in IH. destruct (IH _ Hin _ _ _ H) as [rel Hrel].
        exists (k :: rel). rewrite Hrel, <- app_assoc. reflexivity.
      * subst e. exists [k]. reflexivity.
Qed.

Lemma visit_child_pos (s : bool) k m path pos e :
  (if s then In e (visit (GoPath.Join path k) (pos ++ [k]) m)
   else e = mkEntry (GoPath.Join path k) (pos ++ [k]) None) ->
  exists rel, e_pos e = pos ++ k :: rel.
Proof.
  destruct s; intros H.
  - destruct (visit_pos _ _ _ _ H) as [rel Hrel]. exists rel.
    rewrite Hrel, <- app_assoc. reflexivity.
  - subst e. exists []. reflexivity.
Qed.

(** A removal below [pos] takes entries away, none of the others changes,
    and no entry is left at the place removed. *)
Lemma visit_removeAll rel : forall n n',
  rel <> [] -> removeAll n rel = (n', None) ->
  forall path pos e, In e (visit path pos n') ->
    In e (visit path pos n) /\ e_pos e <> pos ++ rel.
Proof.
  induction rel as [|e0 rest IH]; intros n n' Hne Hr path pos e Hin; [congruence|].
  assert (Hroot : pos <> pos ++ e0 :: rest).
  { intros H. rewrite <- (app_nil_r pos) in H at 1.
    apply app_inv_head in H. discriminate. }
  assert (Hother : forall k rel', k <> e0 -> pos ++ k :: rel' <> pos ++ e0 :: rest).
  { intros k rel' Hk H. apply app_inv_head in H. congruence. }
  destruct n as [c t|t s ents].
  - discriminate.
  - destruct (removeAll_ok_cases _ _ _ _ _ _ Hr)
      as (-> & Hlong & [(Hl & ->)|(m0 & Hl & [(-> & Hp & ->)|(Hne' & m' & Hm & ->)])]).
    + split; [exact Hin|].
      apply visit_In_Dir in Hin. destruct Hin as [->|(k & m & Hk & H)]; [exact Hroot|].
      destruct (visit_child_pos _ _ _ _ _ _ H) as [rel' ->].
      apply Hother. eapply lookup_None_In; eauto.
    + apply visit_In_Dir in Hin. destruct Hin as [->|(k & m & Hk & H)].
      * split; [|exact Hroot]. apply visit_In_Dir. now left.
      * unfold unlink in Hk. apply filter_In in Hk. destruct Hk as [Hk Hn].
        cbn [fst] in Hn. apply negb_true_iff, String.eqb_neq in Hn.
        split; [apply visit_In_Dir; right; eauto|].
        destruct (visit_child_pos _ _ _ _ _ _ H) as [rel' ->]. now apply Hother.
    + apply visit_In_Dir in Hin. destruct Hin as [->|(k & m & Hk & H)].
      * split; [|exact Hroot]. apply visit_In_Dir. now left.
      * unfold replace in Hk. apply in_map_iff in Hk.
        destruct Hk as ([k0 w0] & Heq & Hk0). cbn [fst] in Heq.
        destruct (k0 =? e0) eqn:He.
        -- inversion Heq; subst k m.
           destruct (examined true path e0) eqn:Hex.
           ++ destruct (IH _ _ Hne' Hm _ _ _ H) as [Hold Hpos].
              split.
              ** apply visit_In_Dir. right. exists e0, m0.
                 split; [now apply lookup_In|]. rewrite Hex. exact Hold.
              ** now rewrite <- app_assoc in Hpos.
           ++ split.
              ** apply visit_In_Dir. right. exists e0, m0.
                 split; [now apply lookup_In|]. rewrite Hex. exact H.
              ** subst e. cbn [e_pos]. intros Hpos. apply app_inv_head in Hpos.
                 inversion Hpos. congruence.
        -- inversion Heq; subst k0 w0. apply String.eqb_neq in He.
           split; [apply visit_In_Dir; right; eauto|].
           destruct (visit_child_pos _ _ _ _ _ _ H) as [rel' ->]. now apply Hother.
Qed.

(** In a well-formed tree every entry that was examined is found at its
    position. *)
Lemma visit_find : forall n, wfb n = true ->
  forall path pos e fi, In e (visit path pos n) -> e_info e = Some fi ->
  exists rel m, e_pos e = pos ++ rel /\ find n rel = inr m.
Proof.
  induction n as [c t|t s ents IH] using node_rect'; intros Hwf path pos e fi Hin Hfi.
  - destruct Hin as [<-|[]]. exists [], (File c t). simpl. now rewrite app_nil_r.
  - apply visit_In_Dir in Hin. destruct Hin as [->|(k & m & Hk & H)].
    + exists [], (Dir t s ents). simpl. now rewrite app_nil_r.
    + destruct (examined s path k) eqn:Hex; [|subst e; discriminate].
      destruct (examined_not_long _ _ _ Hex) as [-> Hlong].
      simpl in Hwf. apply andb_true_iff in Hwf. destruct Hwf as [Hd Hall].
      rewrite forallb_forall in Hall. rewrite Forall_forall in IH.
      destruct (IH _ Hk (Hall _ Hk) _ _ _ _ H Hfi) as (rel & m' & Hrel & Hf).
      exists (k :: rel), m'. split.
      * rewrite Hrel, <- app_assoc. reflexivity.
      * cbn [find]. now rewrite Hlong, (lookup_distinct _ _ _ Hd Hk).
Qed.

Lemma wfb_find q : forall n m, wfb n = true -> find n q = inr m -> wfb m = true.
Proof.
  induction q as [|e rest IH]; intros n m Hwf Hf.
  - simpl in Hf. now inversion Hf; subst.
  - destruct n as [c t|t s ents]; [discriminate|]. cbn [find] in Hf.
    destruct s; [|discriminate]. destruct (too_long e); [discriminate|].
    destruct (lookup e ents) as [m0|] eqn:Hl; [|discriminate].
    simpl in Hwf. apply andb_true_iff in Hwf. destruct Hwf as [_ Hall].
    rewrite forallb_forall in Hall.
    apply (IH m0); [|exact Hf]. apply (Hall (e, m0)). now apply lookup_In.
Qed.

Lemma distinct_filter (f : string -> bool) l :
  distinct l = true -> distinct (filter f l) = true.
Proof.
  induction l as [|x r IH]; simpl; [reflexivity|].
  intros H. apply andb_true_iff in H. destruct H as [Hx Hr].
  destruct (f x); simpl; [|auto].
  rewrite (IH Hr), andb_true_r. apply negb_true_iff. apply negb_true_iff in Hx.
  destruct (existsb (String.eqb x) (filter f r)) eqn:He; [|reflexivity].
  apply existsb_exists in He. destruct He as (y & Hy & Hxy).
  apply filter_In in Hy. destruct Hy as [Hy _].
  assert (existsb (String.eqb x) r = true) by (apply existsb_exists; eauto).
  congruence.
Qed.

Lemma map_fst_unlink name es :
  map fst (unlink name es) = filter (fun k => negb (k =? name)) (map fst es).
Proof.
  induction es as [|[k w] r IH]; simpl; [reflexivity|].
  destruct (k =? name); simpl; now rewrite IH.
Qed.

Lemma map_fst_replace name v es : map fst (replace name v es) = map fst es.
Proof.
  unfold replace. rewrite map_map. apply map_ext_in. intros [k w] _. simpl.
  destruct (k =? name) eqn:Hk; [|reflexivity]. simpl. symmetry. now apply String.eqb_eq.
Qed.

Lemma wfb_removeAll q : forall n n',
  wfb n = true -> removeAll n q = (n', None) -> wfb n' = true.
Proof.
  induction q as [|e rest IH]; intros n n' Hwf Hr.
  - exfalso. eapply removeAll_root; eauto.
  - destruct n as [c t|t s ents]; [simpl in Hr; now inversion Hr; subst|].
    pose proof Hwf as Hwf0. simpl in Hwf. apply andb_true_iff in Hwf.
    destruct Hwf as [Hd Hall]. rewrite forallb_forall in Hall.
    destruct (removeAll_ok_cases _ _ _ _ _ _ Hr)
      as (-> & Hlong & [(Hl & ->)|(m0 & Hl & [(-> & Hp & ->)|(Hne' & m' & Hm & ->)])]).
    + exact Hwf0.
    + simpl. apply andb_true_iff. split.
      * rewrite map_fst_unlink. now apply distinct_filter.
      * apply forallb_forall. intros kv Hkv. unfold unlink in Hkv.
        apply filter_In in Hkv. now apply Hall.
    + simpl. apply andb_true_iff. split.
      * now rewrite map_fst_replace.
      * apply forallb_forall. intros kv Hkv. unfold replace in Hkv.
        apply in_map_iff in Hkv. destruct Hkv as ([k0 w0] & Heq & Hk0).
        cbn [fst] in Heq. destruct (k0 =? e); subst kv; cbn [snd].
        -- apply (IH m0); [|exact Hm]. apply (Hall (e, m0)). now apply lookup_In.
        -- now apply (Hall (k0, w0)).
Qed.

(** A removal strictly below a node that is found is a removal in that
    node, which is still found afterwards. *)
Lemma find_removeAll_below q0 : forall t n rel t',
  find t q0 = inr n -> rel <> [] -> removeAll t (q0 ++ rel) = (t', None) ->
  exists n', find t' q0 = inr n' /\ removeAll n rel = (n', None).
Proof.
  induction q0 as [|e rest0 IH]; intros t n rel t' Hf Hne Hr.
  - simpl in Hf. inversion Hf; subst. exists t'. split; [reflexivity|exact Hr].
  - destruct t as [c tm|tm s ents]; [discriminate|].
    cbn [find] in Hf. rewrite <- app_comm_cons in Hr.
    destruct (removeAll_ok_cases _ _ _ _ _ _ Hr)
      as (-> & Hlong & [(Hl & ->)|(m0 & Hl & [(Hnil & Hp & ->)|(Hne' & m' & Hm & ->)])]);
      rewrite Hlong, Hl in Hf.
    + discriminate.
    + apply app_eq_nil in Hnil. destruct Hnil. congruence.
    + destruct (IH _ _ _ _ Hf Hne Hm) as (n' & Hf' & Hr').
      exists n'. split; [|exact Hr'].
      cbn [find]. now rewrite Hlong, (lookup_replace _ _ _ _ Hl).
Qed.

Lemma find_app q0 : forall t n rel,
  find t q0 = inr n -> find t (q0 ++ rel) = find n rel.
Proof.
  induction q0 as [|e rest IH]; intros t n rel H.
  - simpl in H. now inversion H.
  - destruct t as [c tm|tm s ents]; [discriminate|]. cbn [find app] in *.
    destruct s; [|discriminate]. destruct (too_long e); [discriminate|].
    destruct (lookup e ents); [|discriminate]. now apply IH.
Qed.

(** The only entry at the place a walk starts from is the one of that place. *)
Lemma visit_at_root n path pos e :
  In e (visit path pos n) -> e_pos e = pos ->
  e = mkEntry path pos (Some (info_of n)).
Proof.
  intros Hin Hpos. destruct n as [c t|t s ents].
  - now destruct Hin as [<-|[]].
  - apply visit_In_Dir in Hin. destruct Hin as [->|(k & m & Hk & H)]; [reflexivity|].
    destruct (visit_child_pos _ _ _ _ _ _ H) as [rel Hrel].
    rewrite Hrel in Hpos. rewrite <- (app_nil_r pos) in Hpos at 2.
    apply app_inv_head in Hpos. discriminate.
Qed.

Lemma item_success {X : Type} (op : FS -> X -> FS * option error) x xs : forall fs,
  In x xs -> Forall (fun r => r = None) (item_results op fs xs) ->
  exists s s', op s x = (s', None).
Proof.
  induction xs as [|y r IH]; intros fs Hin H; [destruct Hin|].
  simpl in H. inversion H as [|? ? H1 H2]; subst.
  destruct Hin as [->|Hin].
  - exists fs, (fst (op fs x)). destruct (op fs x) as [s' e]. simpl in *. now subst.
  - eapply IH; eauto.
Qed.

Lemma filter_none {A : Type} (f : A -> bool) l :
  (forall x, In x l -> f x = false) -> filter f l = [].
Proof.
  induction l as [|x r IH]; intros H; [reflexivity|]. simpl.
  rewrite (H x (or_introl eq_refl)). apply IH. intros y Hy. apply H. now right.
Qed.

(** The loop of [MultiRemove] over paths that lie below the place the walk
    starts from: the walk meets fewer and fewer entries, and at the end none
    that was examined at the place of a removed path. *)
Lemma removal_loop lcm dir q0 ps : forall fs n,
  wfb (tree fs) = true ->
  find (tree fs) q0 = inr n ->
  Forall (fun p => exists rel, rel <> [] /\
            elements (GoPath.Join (localPath lcm) p) = q0 ++ rel) ps ->
  Forall (fun r => r = None) (item_results (Remove lcm) fs ps) ->
  exists n',
    find (tree (final_state (Remove lcm) fs ps)) q0 = inr n' /\
    (forall e, In e (visit dir q0 n') -> In e (visit dir q0 n)) /\
    (forall e fi, In e (visit dir q0 n') -> e_info e = Some fi ->
       Forall (fun p => e_pos e <> elements (GoPath.Join (localPath lcm) p)) ps).
Proof.
  induction ps as [|p r IH]; intros fs n Hwf Hf Hps Hok.
  - exists n. simpl. repeat split; auto.
  - inversion Hps as [|? ? (rel & Hne & Hq) Hps']; subst.
    simpl in Hok. inversion Hok as [|? ? H1 H2]; subst.
    destruct (Remove lcm fs p) as [fs1 e1] eqn:Hr. simpl in H1, H2. subst e1.
    assert (Hstep : exists n1,
              wfb (tree fs1) = true /\ find (tree fs1) q0 = inr n1 /\
              (forall e, In e (visit dir q0 n1) -> In e (visit dir q0 n)) /\
              (forall e fi, In e (visit dir q0 n1) -> e_info e = Some fi ->
                 e_pos e <> q0 ++ rel)).
    { destruct (Remove_ok_cases _ _ _ _ Hr) as [(-> & Hm)|(m & t' & Hrj & Hm & Hrm & ->)].
      - destruct (locate_ENOENT _ _ Hm) as [E|[_ Hm']].
        { rewrite E in Hq. cbn in Hq. symmetry in Hq. apply app_eq_nil in Hq.
          destruct Hq. congruence. }
        rewrite Hq in Hm'. exists n. repeat split; auto.
        intros e fi Hin Hfi Hpos.
        destruct (visit_find n (wfb_find _ _ _ Hwf Hf) _ _ _ _ Hin Hfi)
          as (rel' & m' & Hrel' & Hfm).
        rewrite Hrel' in Hpos. apply app_inv_head in Hpos. subst rel'.
        rewrite (find_app _ _ _ _ Hf) in Hm'. congruence.
      - rewrite Hq in Hm, Hrm.
        destruct (find_removeAll_below _ _ _ _ _ Hf Hne Hrm) as (n1 & Hf1 & Hr1).
        exists n1. simpl. split; [eapply wfb_removeAll; eauto|].
        split; [exact Hf1|]. split.
        + intros e Hin. eapply visit_removeAll; eauto.
        + intros e fi Hin _. eapply visit_removeAll; eauto. }
    destruct Hstep as (n1 & Hwf1 & Hf1 & Hsub1 & Hgone1).
    destruct (IH fs1 n1 Hwf1 Hf1 Hps' H2) as (n' & Hf' & Hsub' & Hgone').
    exists n'. simpl. rewrite Hr. simpl. split; [exact Hf'|]. split; [auto|].
    intros e fi Hin Hfi. constructor; [|eauto].
    rewrite Hq. eapply Hgone1; eauto.
Qed.

Lemma ListWithPrefix_nothing lcm Glob fs prefix :
  let absPrefix := GoPath.Join (localPath lcm) prefix in
  (forall e, In e (visited fs (GoPath.Dir absPrefix)) -> unknown_under absPrefix e = false) ->
  (forall e, In e (visited fs (GoPath.Dir absPrefix)) -> file_under absPrefix e = false) ->
  ListWithPrefix lcm Glob fs prefix true = Ret ([], [], None).
Proof.
  intros absPrefix Hu Hf. rewrite ListWithPrefix_phases, listing_recursive.
  fold absPrefix.
  destruct (existsb (unknown_under absPrefix) (visited fs (GoPath.Dir absPrefix))) eqn:He.
  - apply existsb_exists in He. destruct He as (e & Hin & He).
    rewrite (Hu e Hin) in He. discriminate.
  - now rewrite (filter_none _ _ Hf).
Qed.

(** C9, as the code has it.  [RemoveWithPrefix] is the recursive listing
    followed by [MultiRemove] over the listed paths, or the error of the
    listing.  When it returns no error none of the listed paths exists
    afterwards; and the next recursive listing of the prefix is empty when, in
    a well-formed store, every listed path, joined under the root again,
    names the place of the file it was listed for. *)
Theorem RemoveWithPrefix_clears_listed : forall lcm Glob fs prefix,
  let absPrefix := GoPath.Join (localPath lcm) prefix in
  let listed := filter (file_under absPrefix) (visited fs (GoPath.Dir absPrefix)) in
  let name := fun e => GoStrings.TrimPrefix (e_path e) (localPath lcm) in
  RemoveWithPrefix lcm Glob fs prefix
  = match ListWithPrefix lcm Glob fs prefix true with
    | Panic => Panic
    | Ret (_, _, Some err) => Ret (fs, Some err)
    | Ret (filePaths, _, None) => Ret (MultiRemove lcm fs filePaths)
    end /\
  forall fs', RemoveWithPrefix lcm Glob fs prefix = Ret (fs', None) ->
    Forall (fun p => Exist lcm fs' p = (false, None)) (map name listed) /\
    (wfb (tree fs) = true ->
     Forall (fun e => elements (GoPath.Join (localPath lcm) (name e)) = e_pos e) listed ->
     ListWithPrefix lcm Glob fs' prefix true = Ret ([], [], None)).
Proof.
  intros lcm Glob fs prefix absPrefix listed name.
  split; [reflexivity|]. intros fs' H. unfold RemoveWithPrefix in H.
  destruct (ListWithPrefix lcm Glob fs prefix true) as [|[[ps ts] [err|]]] eqn:Hl;
    try discriminate.
  destruct (ListWithPrefix_recursive _ _ _ _ _ _ _ Hl) as [Hun Hps].
  fold absPrefix in Hun, Hps. fold listed in Hps. fold name in Hps.
  rewrite MultiRemove_eq in H. injection H as Hfs Hagg.
  apply aggregate_nil_iff in Hagg. rewrite <- Hps.
  split; [rewrite <- Hfs; now apply removed_all_missing|].
  intros Hwf Hback.
  set (dir := GoPath.Dir absPrefix) in *. set (q0 := elements dir).
  assert (Hun' : forall e, In e (visited fs dir) -> unknown_under absPrefix e = false).
  { intros e Hin. destruct (unknown_under absPrefix e) eqn:E; [|reflexivity].
    assert (existsb (unknown_under absPrefix) (visited fs dir) = true)
      by (apply existsb_exists; eauto).
    congruence. }
  unfold visited in listed, Hun'. fold q0 in listed, Hun'.
  destruct (locate fs dir) as [err|n0] eqn:Hl0.
  - (* the walk could not start: nothing was listed, nothing was removed *)
    assert (Hnil : listed = []).
    { unfold listed, file_under. cbn [filter e_info]. now rewrite andb_false_r. }
    rewrite Hnil in Hps. cbn [map] in Hps. subst ps. cbn [final_state] in Hfs. subst fs'.
    apply (ListWithPrefix_nothing lcm Glob); fold absPrefix; fold dir; unfold visited; fold q0;
      rewrite Hl0; intros e [<-|[]].
    + apply Hun'. now left.
    + unfold file_under. simpl. now rewrite andb_false_r.
  - (* every listed path lies strictly below the place the walk starts from *)
    destruct (locate_inr _ _ _ Hl0) as [Hrj Hf0]. fold q0 in Hf0.
    assert (Hbelow : Forall (fun p => exists rel, rel <> [] /\
                        elements (GoPath.Join (localPath lcm) p) = q0 ++ rel) ps).
    { subst ps. apply Forall_forall. intros p Hp. apply in_map_iff in Hp.
      destruct Hp as (e & <- & He). pose proof He as He'.
      unfold listed in He'. apply filter_In in He'. destruct He' as [Hin Hfu].
      rewrite Forall_forall in Hback. rewrite (Hback e He).
      destruct (visit_pos _ _ _ _ Hin) as [rel Hrel]. exists rel. split; [|exact Hrel].
      intros ->. rewrite app_nil_r in Hrel.
      pose proof (visit_at_root _ _ _ _ Hin Hrel) as Hroot.
      assert (Hq0 : q0 = []).
      { apply Dir_under_itself. fold dir. unfold file_under in Hfu.
        apply andb_true_iff in Hfu. destruct Hfu as [Hpre _].
        now rewrite Hroot in Hpre. }
      assert (Hp : In (name e) (map name listed)) by (apply in_map_iff; eauto).
      destruct (item_success _ _ _ _ Hp Hagg) as (s & s' & Hrm).
      destruct (Remove_ok_cases _ _ _ _ Hrm) as [(_ & Hm)|(m & t' & _ & _ & Hrm' & _)].
      - destruct (locate_ENOENT _ _ Hm) as [E|[_ Hm']].
        + apply Join_empty in E. destruct E as [Eroot Ename].
          unfold name in Ename. rewrite Eroot, TrimPrefix_empty, Hroot in Ename.
          apply (Dir_not_empty absPrefix). exact Ename.
        + rewrite (Hback e He), Hrel, Hq0 in Hm'. discriminate.
      - rewrite (Hback e He), Hrel, Hq0 in Hrm'. eapply removeAll_root; eauto. }
    destruct (removal_loop lcm dir q0 ps fs n0 Hwf Hf0 Hbelow Hagg)
      as (n' & Hf' & Hsub & Hgone).
    rewrite Hfs in Hf'.
    apply (ListWithPrefix_nothing lcm Glob); fold absPrefix; fold dir; unfold visited;
      rewrite (locate_accept _ _ Hrj); fold q0; rewrite Hf'; intros e Hin.
    + apply Hun'. auto.
    + destruct (file_under absPrefix e) eqn:Hfu; [exfalso|reflexivity].
      assert (He : In e listed) by (apply filter_In; auto).
      pose proof Hfu as Hfu'. unfold file_under in Hfu'.
      apply andb_true_iff in Hfu'. destruct Hfu' as [_ Hinfo].
      destruct (e_info e) as [fi|] eqn:Hfi; [|discriminate].
      pose proof (Hgone e fi Hin Hfi) as Hg. rewrite Forall_forall in Hg, Hback.
      apply (Hg (name e)).
      * rewrite Hps. apply in_map_iff. eauto.
      * symmetry. now apply Hback.
Qed.

(** X14.  When the parent directory of the resolved prefix cannot be examined the
    walk reports it with no [FileInfo], but its path does not start with the
    prefix, so the function literal leaves it alone: the listing is empty. *)
Lemma ListWithPrefix_missing_parent lcm Glob fs prefix err :
  Lstat fs (GoPath.Dir (GoPath.Join (localPath lcm) prefix)) = inl err ->
  ListWithPrefix lcm Glob fs prefix true = Ret ([], [], None).
Proof.
  unfold Lstat, Stat. intros H.
  destruct (locate fs (GoPath.Dir (GoPath.Join (localPath lcm) prefix)))
    as [e|n] eqn:Hf; [|discriminate].
  apply (ListWithPrefix_nothing lcm Glob); unfold visited; rewrite Hf; intros x [<-|[]].
  - unfold unknown_under. cbn [e_path e_info]. rewrite andb_true_r.
    destruct (GoStrings.HasPrefix _ _) eqn:Hp; [|reflexivity].
    rewrite (locate_accept _ _ (reject_Dir_root _ Hp)) in Hf.
    apply Dir_under_itself in Hp. rewrite Hp in Hf. discriminate.
  - unfold file_under. cbn [e_info]. now rewrite andb_false_r.
Qed.

(** ** The statements at concrete inputs *)

Lemma Exist_reports_presence_witness :
  Exist dataLCM freshFS "a/x" = (false, None) /\
  Exist dataLCM (fst (Write dataLCM freshFS "a/x" [x01])) "a/x" = (true, None) /\
  (Exist dataLCM treeFS "a/b/x.txt" = (false, None) \/
   Exist dataLCM treeFS "a/b/x.txt" = (true, None) /\
   exists stored, Read dataLCM treeFS "a/b/x.txt" = (stored, None)) /\
  Exist dataLCM treeFS longName = (false, Some ENAMETOOLONG) /\
  Exist dataLCM treeFS (String "000" "") = (false, Some EINVAL).
Proof.
  destruct (Exist_reports_presence dataLCM freshFS "a/x") as (_ & _ & _ & _ & H4 & H5).
  split; [|split; [|split; [|split]]].
  - apply (H4 [x01] (fst (Write dataLCM freshFS "a/x" [x01]))). vm_compute. reflexivity.
  - apply (H5 [x01]). vm_compute. reflexivity.
  - destruct (Exist_reports_presence dataLCM treeFS "a/b/x.txt") as (_ & _ & _ & H & _).
    apply (H [x09] (fst (Write dataLCM treeFS "a/b/x.txt" [x09]))). vm_compute. reflexivity.
  - destruct (Exist_reports_presence dataLCM treeFS longName) as (_ & _ & H & _).
    apply H; vm_compute; reflexivity.
  - destruct (Exist_reports_presence dataLCM treeFS (String "000" "")) as (_ & _ & H & _).
    apply H; vm_compute; reflexivity.
Defined.

Lemma MultiRead_slots_and_failures_witness :
  nth_error (fst (MultiRead dataLCM treeFS ["a/b/x.txt"; "a/none"])) 1 = Some [].
Proof.
  pose proof (MultiRead_slots_and_failures dataLCM treeFS ["a/b/x.txt"; "a/none"]) as H.
  cbv zeta in H. destruct H as (_ & H & _).
  apply (H 1%nat "a/none"); vm_compute; reflexivity.
Defined.

Lemma batches_run_every_item_witness :
  Forall (fun p => snd (Read dataLCM treeFS p) = None) ["a/b/x.txt"; "a/bc/z.txt"].
Proof.
  pose proof (batches_run_every_item dataLCM treeFS [] ["a/b/x.txt"; "a/bc/z.txt"]) as H.
  cbv zeta in H. destruct H as (_ & (_ & H) & _).
  apply H. vm_compute. reflexivity.
Defined.


Lemma ListWithPrefix_modTimes_witness :
  exists modTimes,
    ListWithPrefix dataLCM noGlob treeFS "a/b" true
    = Ret (["a/b/c/y.txt"; "a/b/x.txt"; "a/bc/z.txt"], modTimes, None) /\
    List.length modTimes = 3%nat.
Proof.
  destruct (ListWithPrefix_modTimes dataLCM noGlob treeFS "a/b" true
              ["a/b/c/y.txt"; "a/b/x.txt"; "a/bc/z.txt"]) as (H & _).
  - vm_compute. reflexivity.
  - destruct H as (ts & H1 & H2 & _).
    + repeat constructor; eexists; vm_compute; reflexivity.
    + exists ts. split; assumption.
Defined.

Lemma Remove_idempotent_witness :
  Remove dataLCM treeFS "a/none" = (treeFS, None).
Proof.
  apply (proj1 (Remove_idempotent dataLCM treeFS "a/none")).
  vm_compute. reflexivity.
Defined.

Lemma ListWithPrefix_literal_prefix_witness :
  ["a/b/c/y.txt"; "a/b/x.txt"; "a/bc/z.txt"]
  = map (fun e => GoStrings.TrimPrefix (e_path e) (localPath dataLCM))
      (filter (file_under (GoPath.Join (localPath dataLCM) "a/b"))
         (visited treeFS (GoPath.Dir (GoPath.Join (localPath dataLCM) "a/b")))).
Proof.
  apply (proj1 ListWithPrefix_literal_prefix dataLCM noGlob treeFS "a/b"
           ["a/b/c/y.txt"; "a/b/x.txt"; "a/bc/z.txt"] [2; 1; 3]%Z None).
  vm_compute. reflexivity.
Defined.

Lemma RemoveWithPrefix_clears_listed_witness :
  RemoveWithPrefix dataLCM noGlob treeFS "a/b" = Ret (clearedFS, None) /\
  ListWithPrefix dataLCM noGlob clearedFS "a/b" true = Ret ([], [], None).
Proof.
  assert (H0 : RemoveWithPrefix dataLCM noGlob treeFS "a/b" = Ret (clearedFS, None))
    by (vm_compute; reflexivity).
  split; [exact H0|].
  pose proof (RemoveWithPrefix_clears_listed dataLCM noGlob treeFS "a/b") as H.
  cbv zeta in H. destruct H as [_ H]. destruct (H clearedFS H0) as [_ H2].
  apply H2.
  - vm_compute. reflexivity.
  - apply Forall_forall. intros e He. vm_compute in He.
    destruct He as [<-|[<-|[<-|[]]]]; vm_compute; reflexivity.
Defined.

(** ** Paths that are clean already *)

Lemma clean_step_named root out e : named e -> GoPath.clean_step root out e = e :: out.
Proof.
  intros ((He & _) & Hd & Hdd). unfold GoPath.clean_step.
  apply String.eqb_neq in He, Hd, Hdd. now rewrite He, Hd, Hdd.
Qed.

Lemma clean_step_normal root out e :
  normal root out -> GoPath.has_slash e = false ->
  normal root (GoPath.clean_step root out e).
Proof.
  intros (n & names & -> & Hn & Hnames) Hs. unfold GoPath.clean_step.
  destruct (e =? "") eqn:E0; cbn [orb]; [exists n, names; auto|].
  destruct (e =? ".") eqn:E1; cbn [orb]; [exists n, names; auto|].
  destruct (e =? "..") eqn:E2.
  - destruct names as [|x names'].
    + destruct n as [|n']; cbn [app repeat].
      * destruct root; [exists 0%nat, []; auto|].
        exists 1%nat, []. repeat split; [discriminate|constructor].
      * rewrite String.eqb_refl. destruct root; [exists (S n'), []; auto|].
        exists (S (S n')), []. repeat split; [discriminate|constructor].
    + cbn [app]. inversion Hnames as [|? ? Hx Hrest]; subst.
      destruct Hx as (_ & _ & Hx). apply String.eqb_neq in Hx. rewrite Hx.
      exists n, names'. auto.
  - exists n, (e :: names). repeat split; auto.
    constructor; [|assumption]. apply String.eqb_neq in E0, E1, E2.
    repeat split; assumption.
Qed.

Lemma clean_fold_normal root es : forall out,
  Forall (fun e => GoPath.has_slash e = false) es -> normal root out ->
  normal root (fold_left (GoPath.clean_step root) es out).
Proof.
  induction es as [|e r IH]; intros out Hes Hout; [assumption|].
  inversion Hes; subst. simpl. apply IH; [assumption|].
  now apply clean_step_normal.
Qed.

Lemma clean_fold_dotdots n : forall out,
  (exists k, out = repeat ".." k) ->
  fold_left (GoPath.clean_step false) (repeat ".." n) out = repeat ".." n ++ out.
Proof.
  induction n as [|n IH]; intros out [k ->]; [reflexivity|].
  cbn [repeat fold_left].
  assert (E : GoPath.clean_step false (repeat ".." k) ".." = ".." :: repeat ".." k)
    by (destruct k; reflexivity).
  rewrite E. rewrite (IH (".." :: repeat ".." k) (ex_intro _ (S k) eq_refl)).
  change (".." :: repeat ".." k) with (repeat ".." (S k)).
  change (".." :: repeat ".." n) with (repeat ".." (S n)).
  rewrite <- !repeat_app. f_equal. lia.
Qed.

Lemma clean_fold_names root names : forall out,
  Forall named names ->
  fold_left (GoPath.clean_step root) names out = rev names ++ out.
Proof.
  induction names as [|e r IH]; intros out H; [reflexivity|].
  inversion H; subst. cbn [fold_left rev]. rewrite clean_step_named by assumption.
  rewrite IH by assumption. now rewrite <- app_assoc.
Qed.

(** Cleaning what [Clean] wrote writes the same elements again. *)
Lemma clean_fold_again root out :
  normal root out -> fold_left (GoPath.clean_step root) (rev out) [] = out.
Proof.
  intros (n & names & -> & Hn & Hnames).
  rewrite rev_app_distr, rev_repeat, fold_left_app.
  assert (E : fold_left (GoPath.clean_step root) (repeat ".." n) [] = repeat ".." n).
  { destruct root.
    - rewrite (Hn eq_refl). reflexivity.
    - rewrite (clean_fold_dotdots n [] (ex_intro _ 0%nat eq_refl)). apply app_nil_r. }
  rewrite E, clean_fold_names by (now apply Forall_rev).
  now rewrite rev_involutive.
Qed.

Lemma split_plain x : GoPath.has_slash x = false -> GoPath.split x = [x].
Proof.
  induction x as [|c r IH]; [reflexivity|]. simpl. intros H.
  apply orb_false_iff in H. destruct H as [Hc Hr]. now rewrite Hc, (IH Hr).
Qed.

Lemma split_append_slash x rest :
  GoPath.has_slash x = false ->
  GoPath.split (x ++ String "/" rest) = x :: GoPath.split rest.
Proof.
  induction x as [|c r IH]; [reflexivity|]. simpl. intros H.
  apply orb_false_iff in H. destruct H as [Hc Hr]. now rewrite Hc, (IH Hr).
Qed.

Lemma split_concat es :
  Forall (fun e => GoPath.has_slash e = false) es -> es <> [] ->
  GoPath.split (String.concat "/" es) = es.
Proof.
  induction es as [|x r IH]; intros H Hne; [congruence|].
  inversion H; subst. destruct r as [|y r'].
  - now apply split_plain.
  - change (String.concat "/" (x :: y :: r'))
      with (x ++ String "/" (String.concat "/" (y :: r')))%string.
    rewrite split_append_slash by assumption. f_equal. apply IH; [assumption|discriminate].
Qed.

Lemma normal_no_slash root out :
  normal root out -> Forall (fun e => GoPath.has_slash e = false) out.
Proof.
  intros (n & names & -> & _ & Hnames). apply Forall_app. split.
  - eapply Forall_impl; [|exact Hnames]. now intros e ((_ & He) & _).
  - apply Forall_forall. intros e He. apply repeat_spec in He. now subst.
Qed.

Lemma normal_head_not_empty root out x l :
  normal root out -> rev out = x :: l -> exists c r, x = String c r /\ Ascii.eqb c GoPath.slash = false.
Proof.
  intros Hn Hrev.
  assert (Hin : In x out) by (apply in_rev; rewrite Hrev; now left).
  assert (Hns : GoPath.has_slash x = false).
  { pose proof (normal_no_slash _ _ Hn) as H. rewrite Forall_forall in H. auto. }
  destruct Hn as (n & names & -> & _ & Hnames).
  assert (Hne : x <> "").
  { apply in_app_or in Hin. destruct Hin as [Hin|Hin].
    - rewrite Forall_forall in Hnames. now destruct (Hnames _ Hin) as ((H & _) & _).
    - apply repeat_spec in Hin. subst. discriminate. }
  destruct x as [|c r]; [congruence|]. exists c, r. split; [reflexivity|].
  simpl in Hns. now apply orb_false_iff in Hns.
Qed.

Lemma Clean_render root out :
  normal root out ->
  GoPath.Clean (GoPath.render root (rev out)) = GoPath.render root (rev out).
Proof.
  intros Hn.
  pose proof (clean_fold_again _ _ Hn) as Hagain.
  pose proof (normal_no_slash _ _ Hn) as Hns. apply Forall_rev in Hns.
  destruct (rev out) as [|x l] eqn:Hrev.
  - destruct root; reflexivity.
  - destruct (normal_head_not_empty _ _ _ _ Hn Hrev) as (c & r & -> & Hc).
    assert (Hsplit : GoPath.split (String.concat "/" (String c r :: l)) = String c r :: l)
      by (apply split_concat; [assumption|discriminate]).
    assert (Hhead : exists t, String.concat "/" (String c r :: l) = String c t).
    { destruct l; [now exists r|]. eexists. reflexivity. }
    destruct Hhead as [t Ht].
    unfold GoPath.render. destruct root.
    + unfold GoPath.Clean. cbn [String.append String.eqb GoPath.rooted GoPath.split].
      change (Ascii.eqb "/" GoPath.slash) with true. cbn iota.
      unfold GoPath.clean_elems. cbn [fold_left]. rewrite clean_step_empty.
      rewrite Hsplit, Hagain, Hrev. reflexivity.
    + assert (Hne : (String.concat "/" (String c r :: l) =? "") = false)
        by (now rewrite Ht).
      assert (Hr : GoPath.rooted (String.concat "/" (String c r :: l)) = false)
        by (now rewrite Ht).
      unfold GoPath.Clean. rewrite Hne, Hr. unfold GoPath.clean_elems.
      rewrite Hsplit, Hagain, Hrev. reflexivity.
Qed.

(** [Clean] of a path that came out of [Clean] is that path. *)
Lemma Clean_idempotent s : GoPath.Clean (GoPath.Clean s) = GoPath.Clean s.
Proof.
  destruct (s =? "") eqn:E0; [apply String.eqb_eq in E0; subst; reflexivity|].
  assert (Hc : GoPath.Clean s
               = GoPath.render (GoPath.rooted s)
                   (rev (fold_left (GoPath.clean_step (GoPath.rooted s)) (GoPath.split s) [])))
    by (unfold GoPath.Clean, GoPath.clean_elems; now rewrite E0).
  rewrite Hc. apply Clean_render.
  apply clean_fold_normal; [apply split_no_slash|].
  exists 0%nat, []. repeat split; constructor.
Qed.

(** The [Clean] that [ReadAt] applies to the joined path changes nothing,
    unless root and path are both empty: then it is [.] that is opened. *)
Lemma Clean_Join a b :
  GoPath.Join a b <> "" -> GoPath.Clean (GoPath.Join a b) = GoPath.Join a b.
Proof.
  unfold GoPath.Join.
  destruct ((a =? "") && (b =? "")); [congruence|]. intros _.
  destruct (a =? ""); [now rewrite Clean_idempotent|].
  destruct (b =? ""); now rewrite Clean_idempotent.
Qed.

Lemma located_not_empty fs name n : locate fs name = inr n -> name <> "".
Proof. intros H ->. discriminate. Qed.

(** ** Further properties: single objects *)

Lemma Read_ok_iff lcm fs p c :
  Read lcm fs p = (c, None) <->
  exists t, locate fs (GoPath.Join (localPath lcm) p) = inr (File c t).
Proof.
  unfold Read, Exist, Stat, ReadFile. split.
  - destruct (locate _ _) as [err|[c' t|t s ents]].
    + destruct (IsNotExist err); discriminate.
    + simpl. intros H. inversion H; subst. eauto.
    + discriminate.
  - intros [t ->]. reflexivity.
Qed.

Lemma Read_ok_find lcm fs p c :
  Read lcm fs p = (c, None) <->
  reject (GoPath.Join (localPath lcm) p) = None /\
  exists t, find (tree fs) (place lcm p) = inr (File c t).
Proof.
  rewrite Read_ok_iff. unfold place. split.
  - intros [t Ht]. destruct (locate_inr _ _ _ Ht). eauto.
  - intros [Hr [t Ht]]. exists t. now rewrite (locate_accept _ _ Hr).
Qed.

(** X1.  What a [Write] that succeeded stored is what [Read] returns, and [Size]
    is its length. *)
Theorem Write_stores_content : forall lcm fs filePath content fs',
  Write lcm fs filePath content = (fs', None) ->
  Read lcm fs' filePath = (content, None) /\
  LCM.Size lcm fs' filePath = (Z.of_nat (List.length content), None).
Proof.
  intros lcm fs filePath content fs' H.
  destruct (Write_find _ _ _ _ _ H) as [t Ht]. split.
  - apply Read_ok_iff. exists t. exact Ht.
  - unfold LCM.Size, Stat. now rewrite Ht.
Qed.

(** X2.  [Path] returns a path exactly when [Exist] reports the chunk present:
    then it is the joined path, which the system finds; for a chunk reported
    absent it returns the not-found error and the empty path. *)
Theorem Path_of_present : forall lcm fs filePath,
  (forall s, Path lcm fs filePath = (s, None) <->
     s = GoPath.Join (localPath lcm) filePath /\ Exist lcm fs filePath = (true, None)) /\
  (forall s, Path lcm fs filePath = (s, None) -> exists fi, Stat fs s = inr fi) /\
  (Exist lcm fs filePath = (false, None) ->
     Path lcm fs filePath
     = ("", Some (Errorf ("local file cannot be found with filePath: " ++ filePath)))).
Proof.
  intros lcm fs filePath.
  assert (H1 : forall s, Path lcm fs filePath = (s, None) <->
     s = GoPath.Join (localPath lcm) filePath /\ Exist lcm fs filePath = (true, None)).
  { intros s. unfold Path. destruct (Exist lcm fs filePath) as [ex [err|]].
    - split; [discriminate|]. intros [_ H]. discriminate.
    - destruct ex; simpl.
      + split; [intros H; inversion H; auto|]. now intros [-> _].
      + split; [discriminate|]. intros [_ H]. discriminate. }
  split; [exact H1|]. split.
  - intros s Hs. apply H1 in Hs. destruct Hs as [-> He].
    unfold Exist in He. destruct (Stat fs _) as [err|fi]; [|eauto].
    destruct (IsNotExist err); discriminate.
  - intros He. unfold Path. now rewrite He.
Qed.

(** X3.  [Reader] opens the file whose content [Read] returns; it hands out a
    file exactly when [Exist] reports the chunk present, and for one reported
    absent it returns its own not-found error. *)
Theorem Reader_opens_stored : forall lcm fs filePath,
  (forall content, Read lcm fs filePath = (content, None) ->
     exists t, Reader lcm fs filePath = (Some (File content t), None)) /\
  (fst (Reader lcm fs filePath) <> None <-> Exist lcm fs filePath = (true, None)) /\
  (Exist lcm fs filePath = (false, None) ->
     Reader lcm fs filePath
     = (None, Some (Errorf ("local file cannot be found with filePath:" ++ filePath)))).
Proof.
  intros lcm fs filePath. split; [|split].
  - intros content H. apply Read_ok_iff in H. destruct H as [t Ht]. exists t.
    unfold Reader, Exist, Stat, Open. now rewrite Ht.
  - unfold Reader, Exist, Stat, Open.
    destruct (locate _ _) as [err|n]; simpl.
    + destruct (IsNotExist err); simpl; split; intros H; congruence.
    + split; [reflexivity|discriminate].
  - intros He. unfold Reader. now rewrite He.
Qed.

(** X4.  [Size] succeeds exactly when [Exist] reports the chunk present; for a
    chunk reported absent it returns the system's not-exist error, which
    [Exist] itself swallows. *)
Theorem Size_of_present : forall lcm fs filePath,
  (snd (LCM.Size lcm fs filePath) = None <-> Exist lcm fs filePath = (true, None)) /\
  (Exist lcm fs filePath = (false, None) ->
     LCM.Size lcm fs filePath = (0%Z, Some ENOENT)).
Proof.
  intros lcm fs filePath. unfold LCM.Size, Exist.
  destruct (Stat fs _) as [err|fi]; simpl.
  - split.
    + destruct (IsNotExist err); split; discriminate.
    + destruct err; simpl; intros H; try discriminate. reflexivity.
  - split; [split; reflexivity|discriminate].
Qed.

(** X5.  [ReadAt] returns the window of what [Read] returns.  For a chunk
    [Read] reads as [content], a window that lies inside it is read in full
    when its length is one the run time can allocate, and the call panics
    when it is not; the window from 0 of the whole length is [content]. *)
Theorem ReadAt_window_of_Read :
  forall lcm avail fs filePath content (off length : int64),
  Read lcm fs filePath = (content, None) ->
  (Z.of_nat (List.length content) <= maxInt64)%Z ->
  (0 <= val off)%Z -> (0 <= val length)%Z ->
  (val off + val length <= Z.of_nat (List.length content))%Z ->
  ((val length <= Z.min maxAlloc (Z.of_N avail))%Z ->
     ReadAt lcm avail fs filePath off length
     = Ret (firstn (Z.to_nat (val length)) (skipn (Z.to_nat (val off)) content), None)) /\
  ((Z.min maxAlloc (Z.of_N avail) < val length)%Z ->
     ReadAt lcm avail fs filePath off length = Panic) /\
  (forall zero whole : int64,
     val zero = 0%Z -> val whole = Z.of_nat (List.length content) ->
     (val whole <= Z.min maxAlloc (Z.of_N avail))%Z ->
     ReadAt lcm avail fs filePath zero whole = Ret (content, None)).
Proof.
  intros lcm avail fs filePath content off length H Hmax Ho Hl Hfit.
  apply Read_ok_iff in H. destruct H as [t Ht].
  pose proof (Clean_Join _ _ (located_not_empty _ _ _ Ht)) as Hc.
  assert (Hwin : forall o l : int64, (0 <= val o)%Z -> (0 <= val l)%Z ->
            (val o + val l <= Z.of_nat (List.length content))%Z ->
            (val l <= Z.min maxAlloc (Z.of_N avail))%Z ->
            ReadAt lcm avail fs filePath o l
            = Ret (firstn (Z.to_nat (val l)) (skipn (Z.to_nat (val o)) content), None)).
  { intros o l Ho' Hl' Hfit' Hroom. unfold ReadAt, Open.
    assert (Hg : ((val o <? 0) || (val l <? 0))%Z = false)
      by (apply orb_false_iff; split; apply Z.ltb_ge; assumption).
    rewrite Hg, Hc, Ht.
    destruct (Z.ltb_spec (Z.min maxAlloc (Z.of_N avail)) (val l)); [lia|].
    unfold file_ReadAt.
    destruct (val l =? 0)%Z eqn:Hz.
    - apply Z.eqb_eq in Hz. rewrite Hz. reflexivity.
    - destruct (Z.ltb_spec maxInt64 (val o + val l)); [lia|].
      pose proof (length_window content (val o) (val l) Ho' Hl') as Hw.
      destruct (Z.ltb_spec
                  (Z.of_nat (List.length (firstn (Z.to_nat (val l))
                                            (skipn (Z.to_nat (val o)) content))))
                  (val l)); [lia|reflexivity]. }
  split; [now apply Hwin|]. split.
  - intros Hbig. unfold ReadAt, Open.
    assert (Hg : ((val off <? 0) || (val length <? 0))%Z = false)
      by (apply orb_false_iff; split; apply Z.ltb_ge; assumption).
    rewrite Hg, Hc, Ht.
    destruct (Z.ltb_spec (Z.min maxAlloc (Z.of_N avail)) (val length)); [reflexivity|lia].
  - intros zero whole Hz Hw Hroom. rewrite Hwin by lia. do 2 f_equal.
    rewrite Hz, Hw, Nat2Z.id. simpl. apply firstn_all.
Qed.


(** ** Further properties: what a write or a removal leaves alone *)

(** The directories [MkdirAll] makes, also when it fails in the end, leave
    every file where it is. *)
Lemma find_mkdirAll_file now q : forall n n' r p c t,
  mkdirAll now n q = (n', r) -> find n p = inr (File c t) -> find n' p = inr (File c t).
Proof.
  induction q as [|e rest IH]; intros n n' r p c t Hm Hf; simpl in Hm.
  - destruct n; inversion Hm; now subst.
  - destruct n as [c0 t0|t0 s ents]; [inversion Hm; now subst|].
    destruct s; [|inversion Hm; now subst].
    destruct (too_long e); [inversion Hm; now subst|].
    destruct (mkdirAll now _ rest) as [m' err] eqn:Hm'.
    inversion Hm; subst n' r. destruct p as [|e' restp]; [discriminate|].
    cbn [find] in Hf |- *. destruct (too_long e'); [discriminate|].
    destruct (e =? e') eqn:He.
    + apply String.eqb_eq in He. subst e'. rewrite lookup_upsert.
      destruct (lookup e ents) as [m|]; [|discriminate]. eapply IH; eauto.
    + now rewrite (lookup_upsert_other _ _ _ _ He).
Qed.

(** The file [WriteFile] writes is the only one it touches. *)
Lemma find_writeFile_other now data q : forall n n' p c t,
  writeFile now data n q = inr n' -> find n p = inr (File c t) -> p <> q ->
  find n' p = inr (File c t).
Proof.
  induction q as [|e rest IH]; intros n n' p c t Hw Hf Hne; simpl in Hw.
  - destruct n as [c0 t0|t0 s ents]; [|discriminate].
    destruct p; [congruence|discriminate].
  - destruct n as [c0 t0|t0 s ents]; [discriminate|].
    destruct s; [|discriminate].
    destruct (too_long e) eqn:Hlong; [discriminate|].
    destruct p as [|e' restp]; [discriminate|]. cbn [find] in Hf.
    destruct (too_long e') eqn:Hlong'; [discriminate|].
    destruct (e =? e') eqn:He.
    + apply String.eqb_eq in He. subst e'.
      destruct (lookup e ents) as [m|]; [|discriminate].
      destruct (writeFile now data m rest) as [err|m'] eqn:Hw'; [discriminate|].
      inversion Hw; subst n'. cbn [find]. rewrite Hlong, lookup_upsert.
      eapply IH; eauto. congruence.
    + assert (Hn' : exists m', n' = Dir t0 true (upsert e m' ents)).
      { destruct (lookup e ents) as [m|].
        - destruct (writeFile now data m rest); inversion Hw; eauto.
        - destruct rest; inversion Hw; eauto. }
      destruct Hn' as [m' ->]. cbn [find].
      now rewrite Hlong', (lookup_upsert_other _ _ _ _ He).
Qed.

Lemma Write_frame lcm fs p c q content fs' r :
  Read lcm fs p = (c, None) ->
  Write lcm fs q content = (fs', r) ->
  (r = None -> place lcm p <> place lcm q) ->
  Read lcm fs' p = (c, None).
Proof.
  intros Hr Hw Hne.
  destruct (Write_cases _ _ _ _ _ _ Hw) as (fs1 & H1 & H2).
  apply Read_ok_find in Hr. destruct Hr as [Hrj [t Ht]]. apply Read_ok_find.
  split; [exact Hrj|].
  assert (Ht1 : find (tree fs1) (place lcm p) = inr (File c t)).
  { destruct H1 as [->|(t1 & e1 & Hm & ->)]; [exact Ht|].
    simpl. eapply find_mkdirAll_file; eauto. }
  destruct H2 as [[-> _]|Hwf]; [eauto|].
  unfold WriteFile in Hwf.
  destruct (reject (GoPath.Join (localPath lcm) q)); [inversion Hwf; subst; eauto|].
  destruct (writeFile _ _ _ _) as [err|t'] eqn:Hw'; inversion Hwf; subst; [eauto|].
  exists t. simpl. eapply find_writeFile_other; eauto.
Qed.

(** X7.  A [Write] changes no chunk but the one it writes: a chunk that could be
    read before reads the same afterwards when it lies at another place or
    when the write fails. *)
Theorem Write_keeps_other_chunks : forall lcm fs p c q content fs' r,
  Read lcm fs p = (c, None) ->
  Write lcm fs q content = (fs', r) ->
  (r = None -> place lcm p <> place lcm q) ->
  Read lcm fs' p = (c, None).
Proof.
  intros lcm fs p c q content fs' r. apply Write_frame.
Qed.

Lemma final_state_keeps lcm contents : forall fs p c,
  let W := fun s (pc : string * list byte) => Write lcm s (fst pc) (snd pc) in
  Read lcm fs p = (c, None) ->
  Forall (fun pc => place lcm p <> place lcm (fst pc)) contents ->
  Read lcm (final_state W fs contents) p = (c, None).
Proof.
  induction contents as [|[q d] r IH]; intros fs p c W Hr Hne; [exact Hr|].
  inversion Hne; subst. simpl. apply IH; [|assumption].
  unfold W. simpl. destruct (Write lcm fs q d) as [fs1 e] eqn:Hw. simpl.
  eapply Write_frame; eauto.
Qed.

(** X8.  A [MultiWrite] that returns no error, over paths that resolve to different
    places, leaves every path readable with its own content, whatever the
    order the map was ranged in. *)
Theorem MultiWrite_roundtrip : forall lcm fs contents fs',
  MultiWrite lcm fs contents = (fs', None) ->
  NoDup (map (fun pc => place lcm (fst pc)) contents) ->
  Forall (fun pc => Read lcm fs' (fst pc) = (snd pc, None)) contents.
Proof.
  intros lcm fs contents fs' H Hnd. unfold MultiWrite in H.
  rewrite MultiWrite_loop_eq in H. cbn [app] in H. rewrite aggregate_length in H.
  injection H as Hfs Hagg. subst fs'. apply aggregate_nil_iff in Hagg.
  revert fs Hagg Hnd. induction contents as [|[p c] r IH]; intros fs Hagg Hnd; [constructor|].
  simpl in Hagg. inversion Hagg as [|? ? H1 H2]; subst.
  simpl in Hnd. inversion Hnd as [|? ? Hnotin Hnd']; subst.
  destruct (Write lcm fs p c) as [fs1 e] eqn:Hw. simpl in H1, H2. subst e.
  simpl. rewrite Hw. simpl. constructor; [|now apply IH].
  simpl. apply final_state_keeps.
  - eapply Write_Read_roundtrip; eauto.
  - apply Forall_forall. intros pc Hpc Heq. apply Hnotin.
    rewrite Heq. apply in_map_iff. now exists pc.
Qed.

(** The removal of one place leaves the files on other branches alone. *)
Lemma find_removeAll_other p : forall n n' q c t,
  removeAll n q = (n', None) -> find n p = inr (File c t) ->
  (forall rel, p <> q ++ rel) -> find n' p = inr (File c t).
Proof.
  induction p as [|e restp IH]; intros n n' q c t Hr Hf Hne.
  - simpl in Hf. inversion Hf; subst n.
    destruct q as [|e' restq]; [exfalso; eapply removeAll_root; eauto|].
    simpl in Hr. now inversion Hr.
  - destruct q as [|e' restq]; [exfalso; eapply removeAll_root; eauto|].
    destruct n as [c0 t0|t0 s ents]; [discriminate|].
    destruct (removeAll_ok_cases _ _ _ _ _ _ Hr)
      as (-> & Hlong & [(Hl & ->)|(m0 & Hl & [(-> & Hp & ->)|(Hne' & m' & Hm & ->)])]);
      [exact Hf| |]; cbn [find] in Hf |- *;
      (destruct (too_long e); [discriminate|]).
    + destruct (e' =? e) eqn:He.
      * apply String.eqb_eq in He. subst e'. exfalso. apply (Hne restp). reflexivity.
      * now rewrite (lookup_unlink_other _ _ _ He).
    + destruct (e' =? e) eqn:He.
      * apply String.eqb_eq in He. subst e'. rewrite Hl in Hf.
        rewrite (lookup_replace _ _ _ _ Hl). eapply IH; eauto.
        intros rel Heq. apply (Hne rel). simpl. now rewrite Heq.
      * now rewrite (lookup_replace_other _ _ _ _ He).
Qed.

(** X9.  A [Remove] that succeeds leaves every chunk readable that does not lie
    at or below the place removed. *)
Theorem Remove_keeps_other_chunks : forall lcm fs p c q fs',
  Read lcm fs p = (c, None) ->
  Remove lcm fs q = (fs', None) ->
  (forall rel, place lcm p <> place lcm q ++ rel) ->
  Read lcm fs' p = (c, None).
Proof.
  intros lcm fs p c q fs' Hr Hrm Hne.
  destruct (Remove_ok_cases _ _ _ _ Hrm) as [(-> & _)|(m & t' & _ & _ & Hra & ->)];
    [exact Hr|].
  apply Read_ok_find in Hr. destruct Hr as [Hrj [t Ht]]. apply Read_ok_find.
  split; [exact Hrj|]. exists t.
  simpl. eapply find_removeAll_other; eauto.
Qed.

(** X10.  After a [Remove] that succeeded the chunk is gone for every reader:
    [Exist] reports it absent without an error, [Read] and [Size] fail. *)
Theorem Remove_makes_absent : forall lcm fs filePath fs',
  Remove lcm fs filePath = (fs', None) ->
  Exist lcm fs' filePath = (false, None) /\
  Read lcm fs' filePath = ([], Some (Errorf ("file not exist: " ++ filePath))) /\
  LCM.Size lcm fs' filePath = (0%Z, Some ENOENT).
Proof.
  intros lcm fs filePath fs' H.
  pose proof (Remove_then_missing _ _ _ _ H) as He. split; [exact He|]. split.
  - unfold Read. now rewrite He.
  - apply missing_Exist in He. unfold LCM.Size, Stat. now rewrite He.
Qed.

(** X11.  After a [MultiRemove] that returns no error none of its paths exists. *)
Theorem MultiRemove_makes_absent : forall lcm fs filePaths fs',
  MultiRemove lcm fs filePaths = (fs', None) ->
  Forall (fun p => Exist lcm fs' p = (false, None)) filePaths.
Proof.
  intros lcm fs filePaths fs' H. rewrite MultiRemove_eq in H.
  injection H as Hfs Hagg. subst fs'. apply aggregate_nil_iff in Hagg.
  now apply removed_all_missing.
Qed.

(** ** Further properties: listings *)

Lemma modTimes_loop_done lcm fs filePaths : forall modTimes ts,
  modTimes_loop lcm fs filePaths modTimes = (ts, None) ->
  Forall (stat_ok lcm fs) filePaths /\
  List.length ts = (List.length modTimes + List.length filePaths)%nat.
Proof.
  induction filePaths as [|p r IH]; intros modTimes ts H; simpl in H.
  - inversion H; subst. split; [constructor|simpl; lia].
  - unfold getModTime in H.
    destruct (Stat fs (GoPath.Join (localPath lcm) p)) as [err|fi] eqn:Hs; [discriminate|].
    destruct (IH _ _ H) as [Hall Hlen]. split.
    + constructor; [now exists fi|assumption].
    + rewrite Hlen, length_app. simpl. lia.
Qed.

Lemma modTimes_loop_error lcm fs filePaths : forall modTimes ts err,
  modTimes_loop lcm fs filePaths modTimes = (ts, Some err) -> ts = [].
Proof.
  induction filePaths as [|p r IH]; intros modTimes ts err H; simpl in H; [discriminate|].
  destruct (getModTime lcm fs p) as [mt [e|]]; [now inversion H|eauto].
Qed.

Lemma stat_ok_Exist lcm fs p : stat_ok lcm fs p -> Exist lcm fs p = (true, None).
Proof. intros [fi H]. unfold Exist. now rewrite H. Qed.

Lemma ListWithPrefix_result lcm Glob fs prefix recursive filePaths modTimes err :
  ListWithPrefix lcm Glob fs prefix recursive = Ret (filePaths, modTimes, err) ->
  (err = None ->
     List.length modTimes = List.length filePaths /\
     Forall (fun p => Exist lcm fs p = (true, None)) filePaths) /\
  (err <> None -> modTimes = []).
Proof.
  intros H. rewrite ListWithPrefix_phases in H.
  destruct (listing lcm Glob fs prefix recursive) as [|[ps [e|]]]; [discriminate| |].
  - inversion H; subst. split; [discriminate|reflexivity].
  - destruct (modTimes_loop lcm fs ps []) as [ts [e|]] eqn:Hm; inversion H; subst.
    + split; [discriminate|reflexivity].
    + destruct (modTimes_loop_done _ _ _ _ _ Hm) as [Hall Hlen].
      split; [|congruence]. intros _. split; [exact Hlen|].
      eapply Forall_impl; [|exact Hall]. intros p. apply stat_ok_Exist.
Qed.

(** X12.  In either mode, a listing that returns no error has one time per path
    and lists only paths [Exist] reports present; a listing that returns an
    error returns no time at all. *)
Theorem ListWithPrefix_lists_present :
  forall lcm Glob fs prefix recursive filePaths modTimes err,
  ListWithPrefix lcm Glob fs prefix recursive = Ret (filePaths, modTimes, err) ->
  (err = None ->
     List.length modTimes = List.length filePaths /\
     Forall (fun p => Exist lcm fs p = (true, None)) filePaths) /\
  (err <> None -> modTimes = []).
Proof.
  intros lcm Glob fs prefix recursive filePaths modTimes err H.
  exact (ListWithPrefix_result _ _ _ _ _ _ _ _ H).
Qed.

(** X13.  [ReadWithPrefix] returns one content per listed path, the one a single
    [Read] of that path returns; every listed path is one [Exist] reports
    present, so no content is missing for a chunk that is not there; no error
    means every read succeeded.  When the listing fails it returns neither
    paths nor contents. *)
Theorem ReadWithPrefix_contents : forall lcm Glob fs prefix filePaths contents err,
  ReadWithPrefix lcm Glob fs prefix = Ret (filePaths, contents, err) ->
  contents = map (fun p => fst (Read lcm fs p)) filePaths /\
  Forall (fun p => Exist lcm fs p = (true, None)) filePaths /\
  (err = None -> Forall (fun p => snd (Read lcm fs p) = None) filePaths) /\
  (forall ps ts e, ListWithPrefix lcm Glob fs prefix true = Ret (ps, ts, Some e) ->
     filePaths = [] /\ contents = [] /\ err = Some e).
Proof.
  intros lcm Glob fs prefix filePaths contents err H. unfold ReadWithPrefix in H.
  destruct (ListWithPrefix lcm Glob fs prefix true) as [|[[ps ts] [e|]]] eqn:Hl;
    [discriminate| |].
  - inversion H; subst. split; [reflexivity|]. split; [constructor|].
    split; [discriminate|]. intros ps' ts' e' Heq. inversion Heq; subst. auto.
  - rewrite MultiRead_eq in H. inversion H; subst.
    destruct (ListWithPrefix_result _ _ _ _ _ _ _ _ Hl) as [Hok _].
    destruct (Hok eq_refl) as [_ Hall].
    split; [reflexivity|]. split; [exact Hall|]. split.
    + intros Hagg. apply aggregate_nil_iff in Hagg. now rewrite Forall_map in Hagg.
    + intros ps' ts' e' Heq. discriminate.
Qed.

(** ** The further properties at concrete inputs *)

Lemma Write_stores_content_witness :
  Read dataLCM (fst (Write dataLCM freshFS "a/x" [x01; x02])) "a/x" = ([x01; x02], None) /\
  LCM.Size dataLCM (fst (Write dataLCM freshFS "a/x" [x01; x02])) "a/x" = (2%Z, None).
Proof.
  apply (Write_stores_content dataLCM freshFS "a/x" [x01; x02]).
  vm_compute. reflexivity.
Defined.

Lemma Path_of_present_witness :
  Path dataLCM treeFS "a/b/x.txt" = ("/data/a/b/x.txt", None) /\
  Path dataLCM treeFS "a/none"
  = ("", Some (Errorf "local file cannot be found with filePath: a/none")).
Proof.
  split.
  - apply (proj1 (Path_of_present dataLCM treeFS "a/b/x.txt")).
    split; vm_compute; reflexivity.
  - apply (proj2 (proj2 (Path_of_present dataLCM treeFS "a/none"))).
    vm_compute. reflexivity.
Defined.

Lemma Reader_opens_stored_witness :
  exists t, Reader dataLCM treeFS "a/b/x.txt" = (Some (File [x01] t), None).
Proof.
  apply (proj1 (Reader_opens_stored dataLCM treeFS "a/b/x.txt")).
  vm_compute. reflexivity.
Defined.

Lemma Size_of_present_witness :
  LCM.Size dataLCM treeFS "a/none" = (0%Z, Some ENOENT).
Proof.
  apply (proj2 (Size_of_present dataLCM treeFS "a/none")).
  vm_compute. reflexivity.
Defined.

Lemma ReadAt_window_of_Read_witness :
  ReadAt dataLCM 1024 (fst (Write dataLCM freshFS "a/x" [x01; x02; x03])) "a/x"
    (mkInt64 1 eq_refl) (mkInt64 2 eq_refl)
  = Ret ([x02; x03], None).
Proof.
  refine (proj1 (ReadAt_window_of_Read dataLCM 1024 _ "a/x" [x01; x02; x03]
                   (mkInt64 1 eq_refl) (mkInt64 2 eq_refl) _ _ _ _ _) _);
    vm_compute; congruence.
Defined.


Lemma Write_keeps_other_chunks_witness :
  Read dataLCM (fst (Write dataLCM treeFS "a/new" [x09])) "a/b/x.txt" = ([x01], None).
Proof.
  apply (Write_keeps_other_chunks dataLCM treeFS "a/b/x.txt" [x01] "a/new" [x09] _ None).
  - vm_compute. reflexivity.
  - vm_compute. reflexivity.
  - intros _. vm_compute. discriminate.
Defined.

Lemma MultiWrite_roundtrip_witness :
  Forall (fun pc => Read dataLCM (fst (MultiWrite dataLCM freshFS
                                         [("a/x", [x01]); ("b/y", [x02])])) (fst pc)
                    = (snd pc, None))
         [("a/x", [x01]); ("b/y", [x02])].
Proof.
  apply (MultiWrite_roundtrip dataLCM freshFS [("a/x", [x01]); ("b/y", [x02])]).
  - vm_compute. reflexivity.
  - vm_compute. constructor.
    + intros [H|[]]. discriminate.
    + constructor; [intros []|constructor].
Defined.

Lemma Remove_keeps_other_chunks_witness :
  Read dataLCM (fst (Remove dataLCM treeFS "a/bc")) "a/b/x.txt" = ([x01], None).
Proof.
  apply (Remove_keeps_other_chunks dataLCM treeFS "a/b/x.txt" [x01] "a/bc").
  - vm_compute. reflexivity.
  - vm_compute. reflexivity.
  - intros rel H. vm_compute in H. discriminate.
Defined.

Lemma Remove_makes_absent_witness :
  Exist dataLCM (fst (Remove dataLCM treeFS "a/b")) "a/b" = (false, None).
Proof.
  apply (Remove_makes_absent dataLCM treeFS "a/b"). vm_compute. reflexivity.
Defined.

Lemma MultiRemove_makes_absent_witness :
  Forall (fun p => Exist dataLCM (fst (MultiRemove dataLCM treeFS ["a/b/x.txt"; "a/bc"])) p
                   = (false, None))
         ["a/b/x.txt"; "a/bc"].
Proof.
  apply (MultiRemove_makes_absent dataLCM treeFS ["a/b/x.txt"; "a/bc"]).
  vm_compute. reflexivity.
Defined.

Lemma ListWithPrefix_lists_present_witness :
  Forall (fun p => Exist dataLCM treeFS p = (true, None))
         ["a/b/c/y.txt"; "a/b/x.txt"; "a/bc/z.txt"].
Proof.
  apply (ListWithPrefix_lists_present dataLCM noGlob treeFS "a/b" true
           ["a/b/c/y.txt"; "a/b/x.txt"; "a/bc/z.txt"] [2; 1; 3]%Z None);
    [vm_compute|]; reflexivity.
Defined.

Lemma ReadWithPrefix_contents_witness :
  [[x02]; [x01]; [x03]]
  = map (fun p => fst (Read dataLCM treeFS p)) ["a/b/c/y.txt"; "a/b/x.txt"; "a/bc/z.txt"].
Proof.
  apply (ReadWithPrefix_contents dataLCM noGlob treeFS "a/b"
           ["a/b/c/y.txt"; "a/b/x.txt"; "a/bc/z.txt"] [[x02]; [x01]; [x03]] None).
  vm_compute. reflexivity.
Defined.

Lemma ListWithPrefix_missing_parent_witness :
  ListWithPrefix dataLCM noGlob freshFS "a/b" true = Ret ([], [], None).
Proof.
  apply (ListWithPrefix_missing_parent dataLCM noGlob freshFS "a/b" ENOENT).
  vm_compute. reflexivity.
Defined.
